(** * internal/docs/rest: reStructuredText pages for a cobra command tree

    A shallow embedding of [internal/docs/rest/rest.go] and the properties
    of its tree walker ([GenTree], [GenTreeCustom]) and page renderer
    ([GenCustom], [printOptionsReST], [hasSeeAlso], [byName],
    [defaultLinkHandler], [indentString]).

    Go strings are byte strings: they are modelled as [string], whose
    characters are the 8-bit [ascii] values, so that [String.length] is Go's
    [len] and [String.ltb] is Go's [<] on strings. *)

From Stdlib Require Import Bool Arith NArith Lia List String Ascii.
From Stdlib Require Import Permutation Sorted DecimalString.
Import ListNotations.

Local Set Warnings "-register-all,-abstract-large-number".
Local Open Scope list_scope.
Local Open Scope string_scope.

(** ** Strings: the pieces of [strings], [fmt] and [time] that the file uses *)

Module Str.

(** The escapes [\n] and [\t] of the Go literals. *)
Definition nl_char : ascii := "010"%char.
Definition nl : string := String nl_char "".
Definition tab : string := String "009"%char "".

(** [strings.Repeat(s, n)]. *)
Fixpoint Repeat (s : string) (n : nat) : string :=
  match n with
  | O => ""
  | S k => s ++ Repeat s k
  end.

(** [strings.HasPrefix(s, p)], returning what follows the prefix. *)
Fixpoint cutPrefix (p s : string) : option string :=
  match p, s with
  | EmptyString, _ => Some s
  | String a p', String b s' => if Ascii.eqb a b then cutPrefix p' s' else None
  | String _ _, EmptyString => None
  end.

Definition HasPrefix (s p : string) : bool :=
  match cutPrefix p s with Some _ => true | None => false end.

(** [strings.TrimPrefix(s, p)]. *)
Definition TrimPrefix (s p : string) : string :=
  match cutPrefix p s with Some r => r | None => s end.

(** The scan of [strings.ReplaceAll]: left to right, matches do not overlap.
    [skip] counts the bytes of a match that are still to be passed over. *)
Fixpoint replaceFrom (old new : string) (skip : nat) (s : string) : string :=
  match s with
  | EmptyString => ""
  | String c s' =>
      match skip with
      | S k => replaceFrom old new k s'
      | O =>
          if HasPrefix s old
          then new ++ replaceFrom old new (String.length old - 1) s'
          else String c (replaceFrom old new 0 s')
      end
  end.

(** [strings.ReplaceAll(s, old, new)]. Every call in rest.go passes a literal
    [old] that is not empty (" " and "[flags]"); the empty [old], which Go
    matches between the runes of [s], is not used and is left as the
    identity here. *)
Definition ReplaceAll (s old new : string) : string :=
  match old with
  | EmptyString => s
  | String _ _ => replaceFrom old new 0 s
  end.

(** [strings.Split(s, "\n")] and [strings.Join(ls, "\n")]. *)
Fixpoint splitLines (s : string) : list string :=
  match s with
  | EmptyString => [""]
  | String c s' =>
      if Ascii.eqb c nl_char then "" :: splitLines s'
      else match splitLines s' with
           | l :: ls => String c l :: ls
           | [] => [String c ""]
           end
  end.

Definition joinLines (ls : list string) : string := String.concat nl ls.

(** A string seen byte by byte. *)
Fixpoint mapBytes (f : ascii -> ascii) (s : string) : string :=
  match s with
  | EmptyString => ""
  | String c s' => String (f c) (mapBytes f s')
  end.

Fixpoint allBytes (f : ascii -> bool) (s : string) : bool :=
  match s with
  | EmptyString => true
  | String c s' => f c && allBytes f s'
  end.

(** Decimal rendering of a number, padded with zeros to [width] digits:
    [appendInt] of package [time], for the non-negative values it is given. *)
Definition itoa (n : nat) : string := NilEmpty.string_of_uint (Nat.to_uint n).

Definition appendInt (n width : nat) : string :=
  let d := itoa n in
  Repeat "0" (width - String.length d) ++ d.

(** [strings.Contains(s, substr)]. *)
Fixpoint Contains (s substr : string) : bool :=
  HasPrefix s substr
  || match s with
     | EmptyString => false
     | String _ s' => Contains s' substr
     end.

End Str.
Import Str.

(** ** rest.go, lines 201-215: [indentString] *)

(** The loop [for _, c := range b] with its two variables [res] and [bol]. *)
Fixpoint indentLoop (prefix : string) (b : string) (res : string) (bol : bool)
  : string :=
  match b with
  | EmptyString => res
  | String c b' =>
      let res := if bol && negb (Ascii.eqb c nl_char) then res ++ prefix else res in
      let res := res ++ String c "" in
      indentLoop prefix b' res (Ascii.eqb c nl_char)
  end.

Definition indentString (s p : string) : string := indentLoop p s "" true.

(** The inverse direction named by the specification: the prefix is removed
    from every line that is not empty. It is not part of rest.go. *)
Definition stripLine (p l : string) : string :=
  match l with
  | EmptyString => ""
  | String _ _ => TrimPrefix l p
  end.

Definition stripPrefixLines (s p : string) : string :=
  joinLines (map (stripLine p) (splitLines s)).

(** What [indentString] does to one line. *)
Definition indentLine (p l : string) : string :=
  match l with
  | EmptyString => ""
  | String _ _ => p ++ l
  end.

(** ** The command tree of github.com/spf13/cobra, as rest.go reads it *)

(** Modelled from the spec: [FlagUsages] is defined in another file of
    package rest and [*pflag.FlagSet] belongs to the CLI framework. A flag
    collection exposes its "has any displayable flags" predicate and the
    externally formatted flag-usage text. *)
Record FlagSet : Type := mkFlagSet {
  HasAvailableFlags : bool;
  FlagUsages : string
}.

(** A [*cobra.Command] node. [Short], [Long], [Example] and
    [DisableAutoGenTag] are the struct's fields; the other components hold
    what the method of the same name returns for the node ([Commands] is the
    slice of children, in the order the framework enumerates them). The
    parent pointer is not a component: a command is always handled together
    with its chain of ancestors, nearest first. *)
Inductive Command : Type := mkCommand {
  Name : string;
  Short : string;
  Long : string;
  Example : string;
  UseLine : string;
  Runnable : bool;
  IsAvailableCommand : bool;
  IsAdditionalHelpTopicCommand : bool;
  DisableAutoGenTag : bool;
  NonInheritedFlags : FlagSet;
  InheritedFlags : FlagSet;
  Commands : list Command
}.

(** Assignments to [cmd.DisableAutoGenTag] and to the elements of the slice
    behind [cmd.Commands()]. *)
Definition set_DisableAutoGenTag (cmd : Command) (b : bool) : Command :=
  mkCommand (Name cmd) (Short cmd) (Long cmd) (Example cmd) (UseLine cmd)
    (Runnable cmd) (IsAvailableCommand cmd) (IsAdditionalHelpTopicCommand cmd)
    b (NonInheritedFlags cmd) (InheritedFlags cmd) (Commands cmd).

Definition set_Commands (cmd : Command) (cs : list Command) : Command :=
  mkCommand (Name cmd) (Short cmd) (Long cmd) (Example cmd) (UseLine cmd)
    (Runnable cmd) (IsAvailableCommand cmd) (IsAdditionalHelpTopicCommand cmd)
    (DisableAutoGenTag cmd) (NonInheritedFlags cmd) (InheritedFlags cmd) cs.

(** [cmd.HasParent()], [cmd.Parent()]: the head of the ancestor chain. *)
Definition HasParent (anc : list Command) : bool :=
  match anc with [] => false | _ :: _ => true end.

(** [cmd.CommandPath()]: the parent's path, a space, the command's name. *)
Fixpoint CommandPath (anc : list Command) (cmd : Command) : string :=
  match anc with
  | [] => Name cmd
  | parent :: grand => CommandPath grand parent ++ " " ++ Name cmd
  end.

(** [cmd.VisitParents(fn)]: [fn] is called on the parent, then on the
    parent's parent, up to the root; [st] is what the closure writes to. *)
Fixpoint VisitParents {St : Type} (anc : list Command)
  (fn : Command -> St -> St) (st : St) : St :=
  match anc with
  | [] => st
  | parent :: grand => VisitParents grand fn (fn parent st)
  end.

(** The test that both loops over children make:
    [!c.IsAvailableCommand() || c.IsAdditionalHelpTopicCommand()]. *)
Definition skipped (c : Command) : bool :=
  negb (IsAvailableCommand c) || IsAdditionalHelpTopicCommand c.

(** An eligible command is available and is not a help topic. *)
Definition eligible (c : Command) : bool :=
  IsAvailableCommand c && negb (IsAdditionalHelpTopicCommand c).

(** ** Time, files and the other collaborators *)

Inductive Month : Type :=
  | January | February | March | April | May | June
  | July | August | September | October | November | December.

(** The date of a [time.Time]. *)
Record Date : Type := mkDate { day : nat; month : Month; year : nat }.

(** The table [shortMonthNames] of package [time]. *)
Definition shortMonthName (m : Month) : string :=
  match m with
  | January => "Jan" | February => "Feb" | March => "Mar" | April => "Apr"
  | May => "May" | June => "Jun" | July => "Jul" | August => "Aug"
  | September => "Sep" | October => "Oct" | November => "Nov"
  | December => "Dec"
  end.

(** [t.Format("2-Jan-2006")]: the layout elements are [2] (day of the month,
    not padded), [Jan] (short month name) and [2006] (year, four digits). *)
Definition Format_2_Jan_2006 (d : Date) : string :=
  itoa (day d) ++ "-" ++ shortMonthName (month d) ++ "-" ++ appendInt (year d) 4.

Definition error : Type := string.

(** What happened on the file system, oldest event first; an event records
    the error of the operation, if it failed. *)
Inductive event : Type :=
  | EvCreate (name : string) (err : option error)
  | EvWrite (name : string) (data : string) (err : option error)
  | EvClose (name : string).

Definition trace : Type := list event.

(** An [io.Writer]: [Write] with the trace threaded through. *)
Definition Writer : Type := string -> trace -> trace * option error.

(** Everything rest.go calls and does not define. The operating system and
    the clock answer depending on what has happened so far. *)
Class Env : Type := {
  InitDefaultHelpCmd : Command -> Command;
  InitDefaultHelpFlag : Command -> Command;
  sort_Sort : (Command -> Command -> bool) -> list Command -> list Command;
  filepath_Join : string -> string -> string;
  time_Now : trace -> Date;
  os_Create : trace -> string -> option error;
  file_Write : trace -> string -> string -> option error
}.

(** What [sort.Sort] guarantees for the order [less]: the elements are
    rearranged, and afterwards no element is less than an earlier one. The
    sort is not stable, so nothing is said about elements that compare
    equal. *)
Class SortContract (E : Env) : Prop := {
  sort_Sort_perm : forall less l, Permutation l (sort_Sort less l);
  sort_Sort_sorted : forall less l,
    (forall a b c, less a b = false -> less b c = false -> less a c = false) ->
    (forall a b, less a b = true -> less b a = false) ->
    StronglySorted (fun a b => less b a = false) (sort_Sort less l)
}.

(** ** rest.go *)

Section Rest.

Context {E : Env}.

(** Lines 196-199: [defaultLinkHandler]. *)
Definition defaultLinkHandler (name ref : string) : string :=
  "`" ++ name ++ " <" ++ ref ++ ".txt>`_".

(** Lines 155-159: [byName], the order that [sort.Sort] is given. *)
Definition byName_Less (a b : Command) : bool := String.ltb (Name a) (Name b).

(** Lines 142-153: [hasSeeAlso]. *)
Fixpoint hasSeeAlso_range (cs : list Command) : bool :=
  match cs with
  | [] => false
  | c :: rest => if skipped c then hasSeeAlso_range rest else true
  end.

Definition hasSeeAlso (anc : list Command) (cmd : Command) : bool :=
  if HasParent anc then true else hasSeeAlso_range (Commands cmd).

(** The fixed head of both option tables (the raw string literal of lines
    166-173 and 182-189). *)
Definition tableHeader : string :=
  "   :header-rows: 1" ++ nl ++
  "   :widths: 20 10 60 10" ++ nl ++
  nl ++
  "   * - Option" ++ nl ++
  "     - Type" ++ nl ++
  "     - Description" ++ nl ++
  "     - Required" ++ nl.

(** Lines 161-194: [printOptionsReST]. The buffer is passed in and out; the
    error it returns is always nil. *)
Definition printOptionsReST (buf : string) (cmd : Command)
  : string * option error :=
  let flags := NonInheritedFlags cmd in
  let buf :=
    if HasAvailableFlags flags then
      let buf := buf ++ ("Options" ++ nl) in
      let buf := buf ++ ("~~~~~~~" ++ nl ++ nl ++ ".. list-table::" ++ nl) in
      let buf := buf ++ tableHeader in
      let buf := buf ++ indentString (FlagUsages flags) " " in
      buf ++ nl
    else buf in
  let parentFlags := InheritedFlags cmd in
  let buf :=
    if HasAvailableFlags parentFlags then
      let buf := buf ++ ("Inherited Options" ++ nl) in
      let buf := buf ++ ("~~~~~~~~~~~~~~~~~~~~~~~~~~~~~~~~~~~~~~" ++ nl ++ nl
                         ++ ".. list-table::" ++ nl) in
      let buf := buf ++ tableHeader in
      let buf := buf ++ indentString (FlagUsages parentFlags) " " in
      buf ++ nl
    else buf in
  (buf, None).

(** Lines 112-116: the closure given to [VisitParents]; it writes to [cmd]. *)
Definition propagateDisable (c cmd : Command) : Command :=
  if DisableAutoGenTag c then set_DisableAutoGenTag cmd (DisableAutoGenTag c)
  else cmd.

(** Lines 122-129: the loop over the sorted children. *)
Fixpoint seeAlso_range (linkHandler : string -> string -> string)
  (name : string) (children : list Command) (buf : string) : string :=
  match children with
  | [] => buf
  | child :: rest =>
      if skipped child then seeAlso_range linkHandler name rest buf
      else
        let cname := name ++ " " ++ Name child in
        let ref := ReplaceAll cname " " "_" in
        let buf := buf ++ ("* " ++ linkHandler cname ref ++ " " ++ tab ++ " - "
                           ++ Short child ++ nl) in
        seeAlso_range linkHandler name rest buf
  end.

(** Lines 83-88: anchor, title between its two rules, descriptions. *)
Definition titleBlock (name short long : string) : string :=
  let ref := ReplaceAll name " " "_" in
  let buf := "" in
  let buf := buf ++ (".. _" ++ ref ++ ":" ++ nl ++ nl) in
  let buf := buf ++ (Repeat "=" (String.length name) ++ nl) in
  let buf := buf ++ (name ++ nl) in
  let buf := buf ++ (Repeat "=" (String.length name) ++ nl ++ nl) in
  let buf := buf ++ (short ++ nl) in
  buf ++ (nl ++ long ++ nl ++ nl).

(** Lines 90-92: the usage block of a runnable command. *)
Definition usageBlock (cmd : Command) : string :=
  if Runnable cmd then
    ".. code-block::" ++ nl ++ nl ++ "   "
    ++ ReplaceAll (UseLine cmd) "[flags]" "[options]" ++ nl ++ nl
  else "".

(** Lines 98-102: the examples. *)
Definition examplesBlock (cmd : Command) : string :=
  if Nat.ltb 0 (String.length (Example cmd)) then
    let buf := "" in
    let buf := buf ++ ("Examples" ++ nl) in
    let buf := buf ++ ("~~~~~~~~" ++ nl ++ nl) in
    buf ++ (".. code-block::" ++ nl ++ indentString (Example cmd) " "
            ++ nl ++ nl)
  else "".

(** Lines 107-117: the line of the parent, and the walk up the ancestors
    that writes to [cmd.DisableAutoGenTag]. *)
Definition seeAlsoParent (anc : list Command) (cmd : Command)
  (linkHandler : string -> string -> string) : string * Command :=
  match anc with
  | parent :: grand =>
      let pname := CommandPath grand parent in
      let ref := ReplaceAll pname " " "_" in
      ("* " ++ linkHandler pname ref ++ " " ++ tab ++ " - " ++ Short parent
       ++ nl,
       VisitParents anc propagateDisable cmd)
  | [] => ("", cmd)
  end.

(** Lines 104-131: the "See Also" section. [children] is the slice behind
    [cmd.Commands()], which [sort.Sort] rearranges in place. *)
Definition seeAlsoBlock (anc : list Command) (cmd : Command) (name : string)
  (linkHandler : string -> string -> string) : string * Command :=
  if hasSeeAlso anc cmd then
    let buf := "" in
    let buf := buf ++ ("See Also" ++ nl) in
    let buf := buf ++ ("~~~~~~~~" ++ nl ++ nl) in
    let '(line, cmd) := seeAlsoParent anc cmd linkHandler in
    let buf := buf ++ line in
    let children := Commands cmd in
    let children := sort_Sort byName_Less children in
    let cmd := set_Commands cmd children in
    let buf := seeAlso_range linkHandler name children buf in
    (buf ++ nl, cmd)
  else ("", cmd).

(** Lines 132-134: the footer, with the date of [time.Now()]. *)
Definition footerBlock (cmd : Command) (now : Date) : string :=
  if negb (DisableAutoGenTag cmd) then
    "*Auto generated by MongoDB CLI on " ++ Format_2_Jan_2006 now ++ "*" ++ nl
  else "".

(** Lines 70-134 of [GenCustom]: the buffer that is built, the command as
    the call leaves it, and the error of [printOptionsReST]. *)
Definition renderPage (anc : list Command) (cmd : Command)
  (linkHandler : string -> string -> string) (now : Date)
  : string * Command * option error :=
  let cmd := InitDefaultHelpCmd cmd in
  let cmd := InitDefaultHelpFlag cmd in
  let buf := "" in
  let name := CommandPath anc cmd in
  let short := Short cmd in
  let long := Long cmd in
  let long := if String.eqb long "" then short else long in
  let buf := buf ++ titleBlock name short long in
  let buf := buf ++ usageBlock cmd in
  match printOptionsReST buf cmd with
  | (buf, Some err) => (buf, cmd, Some err)
  | (buf, None) =>
      let buf := buf ++ examplesBlock cmd in
      let '(see, cmd) := seeAlsoBlock anc cmd name linkHandler in
      let buf := buf ++ see in
      let buf := buf ++ footerBlock cmd now in
      (buf, cmd, None)
  end.

(** Lines 69-137: [GenCustom]. It returns the trace after the write to [w],
    the command as the call leaves it, and the error. *)
Definition GenCustom (anc : list Command) (cmd : Command) (w : Writer)
  (linkHandler : string -> string -> string) (t : trace)
  : trace * Command * option error :=
  match renderPage anc cmd linkHandler (time_Now t) with
  | (_, cmd, Some err) => (t, cmd, Some err)
  | (buf, cmd, None) =>
      let '(t, err) := w buf t in
      (t, cmd, err)
  end.

(** Writing to the file opened under [filename]. *)
Definition fileWriter (filename : string) : Writer :=
  fun data t =>
    let err := file_Write t filename data in
    ((t ++ [EvWrite filename data err])%list, err).

(** Lines 41-48: the loop over [cmd.Commands()]; [walk] is the recursive
    call. It returns the children as the loop leaves them. *)
Fixpoint GenTreeCustom_range
  (walk : Command -> trace -> trace * Command * option error)
  (cs : list Command) (t : trace) : trace * list Command * option error :=
  match cs with
  | [] => (t, [], None)
  | c :: rest =>
      if skipped c then
        let '(t, rest, err) := GenTreeCustom_range walk rest t in
        (t, c :: rest, err)
      else
        match walk c t with
        | (t, c, Some err) => (t, c :: rest, Some err)
        | (t, c, None) =>
            let '(t, rest, err) := GenTreeCustom_range walk rest t in
            (t, c :: rest, err)
        end
  end.

(** Lines 50-64: the page of one command, after its children. *)
Definition genPage (anc : list Command) (cmd : Command) (dir : string)
  (filePrepender : string -> string)
  (linkHandler : string -> string -> string) (t : trace)
  : trace * Command * option error :=
  let basename := ReplaceAll (CommandPath anc cmd) " " "-" ++ ".txt" in
  let filename := filepath_Join dir basename in
  match os_Create t filename with
  | Some err => ((t ++ [EvCreate filename (Some err)])%list, cmd, Some err)
  | None =>
      let t := (t ++ [EvCreate filename None])%list in
      let '(t, cmd, err) :=
        match fileWriter filename (filePrepender filename) t with
        | (t, Some err) => (t, cmd, Some err)
        | (t, None) =>
            match GenCustom anc cmd (fileWriter filename) linkHandler t with
            | (t, cmd, Some err) => (t, cmd, Some err)
            | (t, cmd, None) => (t, cmd, None)
            end
        end in
      (* defer f.Close() *)
      ((t ++ [EvClose filename])%list, cmd, err)
  end.

(** Lines 40-65: [GenTreeCustom]. A child is walked with [cmd] at the head of
    its ancestors. Of an ancestor, the page of a command reads [Name],
    [Short] and [DisableAutoGenTag] only, and the walk writes to none of
    them before the ancestor's own page is rendered, which is after all the
    pages below it. It returns the trace, the tree as the walk leaves it,
    and the error. *)
Fixpoint GenTreeCustom (anc : list Command) (cmd : Command) (dir : string)
  (filePrepender : string -> string)
  (linkHandler : string -> string -> string) (t : trace) {struct cmd}
  : trace * Command * option error :=
  match
    GenTreeCustom_range
      (fun c => GenTreeCustom (cmd :: anc) c dir filePrepender linkHandler)
      (Commands cmd) t
  with
  | (t, children, Some err) => (t, set_Commands cmd children, Some err)
  | (t, children, None) =>
      genPage anc (set_Commands cmd children) dir filePrepender linkHandler t
  end.

(** Lines 33-36: [GenTree]. *)
Definition GenTree (anc : list Command) (cmd : Command) (dir : string)
  (t : trace) : trace * Command * option error :=
  let emptyStr := fun _ : string => "" in
  GenTreeCustom anc cmd dir emptyStr defaultLinkHandler t.

End Rest.

(** ** The notions the properties are stated with *)

Section Notions.

Context {E : Env}.

(** A space becomes a hyphen, every other byte stays. *)
Definition hyphenate (c : ascii) : ascii :=
  if Ascii.eqb c " "%char then "-"%char else c.

(** The path of a command's page as the specification words it: the output
    directory joined with the command path, hyphens for spaces, and the
    extension. *)
Definition pagePath (dir : string) (anc : list Command) (cmd : Command)
  : string :=
  filepath_Join dir (mapBytes hyphenate (CommandPath anc cmd) ++ ".txt").

(** The commands a walk from [cmd] reaches, each with its ancestors, in the
    order of their pages: the children that are not skipped, one after the
    other and each with what hangs below it, then [cmd]. *)
Fixpoint walkOrder (anc : list Command) (cmd : Command)
  : list (list Command * Command) :=
  (flat_map (fun c => if skipped c then [] else walkOrder (cmd :: anc) c)
     (Commands cmd)
   ++ [(anc, cmd)])%list.

(** All commands of the subtree, each with its ancestors. *)
Fixpoint subtree (anc : list Command) (cmd : Command)
  : list (list Command * Command) :=
  (flat_map (fun c => subtree (cmd :: anc) c) (Commands cmd)
   ++ [(anc, cmd)])%list.

(** [Reached anc root a c]: [c], with ancestors [a], is [root] or is linked
    to [root] by a chain of children that are all eligible. *)
Inductive Reached (anc : list Command) (root : Command)
  : list Command -> Command -> Prop :=
  | Reached_root : Reached anc root anc root
  | Reached_child : forall a p c,
      Reached anc root a p -> In c (Commands p) -> eligible c = true ->
      Reached anc root (p :: a) c.

(** The page path of a command given with its ancestors. *)
Definition pageOf (dir : string) (ac : list Command * Command) : string :=
  pagePath dir (fst ac) (snd ac).

(** The file an event is about. *)
Definition eventFile (e : event) : string :=
  match e with
  | EvCreate f _ | EvWrite f _ _ | EvClose f => f
  end.

(** The files that were created, in the order of their creation. *)
Fixpoint created (t : trace) : list string :=
  match t with
  | [] => []
  | EvCreate f None :: t' => f :: created t'
  | _ :: t' => created t'
  end.

(** An operation that returned an error. *)
Definition failed (e : event) : bool :=
  match e with
  | EvCreate _ (Some _) | EvWrite _ _ (Some _) => true
  | _ => false
  end.

(** The events of one page that is generated without error: the file is
    created, the prepended text and the page are written, the file is
    closed. *)
Definition pageEvents (f prepended page : string) : trace :=
  [EvCreate f None; EvWrite f prepended None; EvWrite f page None; EvClose f].

(** [Pages d fs]: the events [d] are those of the pages [fs], whole and one
    after the other. *)
Inductive Pages : trace -> list string -> Prop :=
  | Pages_nil : Pages [] []
  | Pages_cons : forall f prepended page d fs,
      Pages d fs -> Pages (pageEvents f prepended page ++ d)%list (f :: fs).

(** [Failing f err d]: the events [d] are those of a page on which an
    operation returned [err]: the creation, or one of the two writes, after
    which the file is only closed. *)
Inductive Failing (f : string) (err : error) : trace -> Prop :=
  | Failing_create : Failing f err [EvCreate f (Some err)]
  | Failing_prepend : forall prepended,
      Failing f err
        [EvCreate f None; EvWrite f prepended (Some err); EvClose f]
  | Failing_page : forall prepended page,
      Failing f err
        [EvCreate f None; EvWrite f prepended None;
         EvWrite f page (Some err); EvClose f].

(** What a run over the pages [ps] leaves in the trace. Without error: all
    the pages, whole. With the error [err]: the pages before the one that
    failed, whole, then the failing page, and nothing of the pages [rest]
    that would have followed. *)
Definition RunOf (ps : list string) (d : trace) (err : option error) : Prop :=
  match err with
  | None => Pages d ps
  | Some e =>
      exists pre fs f bad rest,
        d = (pre ++ bad)%list /\ Pages pre fs /\ Failing f e bad /\
        ps = (fs ++ f :: rest)%list
  end.

(** The names of listed commands are in ascending order, strictly or not. *)
Definition ascendingNames (cs : list Command) : Prop :=
  StronglySorted (fun a b => String.leb (Name a) (Name b) = true) cs.

Definition strictlyAscendingNames (cs : list Command) : Prop :=
  StronglySorted (fun a b => String.ltb (Name a) (Name b) = true) cs.

(** The line of a child in "See Also". *)
Definition childLine (linkHandler : string -> string -> string)
  (name : string) (child : Command) : string :=
  let cname := name ++ " " ++ Name child in
  "* " ++ linkHandler cname (ReplaceAll cname " " "_") ++ " " ++ tab ++ " - "
  ++ Short child ++ nl.

(** The line of the parent in "See Also". *)
Definition parentLine (linkHandler : string -> string -> string)
  (grand : list Command) (parent : Command) : string :=
  let pname := CommandPath grand parent in
  "* " ++ linkHandler pname (ReplaceAll pname " " "_") ++ " " ++ tab ++ " - "
  ++ Short parent ++ nl.

(** The command as the two [InitDefault...] calls of [GenCustom] leave it. *)
Definition initialised (cmd : Command) : Command :=
  InitDefaultHelpFlag (InitDefaultHelpCmd cmd).

(** The footer line for a date. *)
Definition footerLine (now : Date) : string :=
  "*Auto generated by MongoDB CLI on " ++ itoa (day now) ++ "-"
  ++ shortMonthName (month now) ++ "-" ++ appendInt (year now) 4 ++ "*" ++ nl.

End Notions.

(** ** A concrete environment and concrete trees *)

(** Insertion sort, one of the sorts that meet the contract. *)
Fixpoint insertSorted (less : Command -> Command -> bool) (x : Command)
  (l : list Command) : list Command :=
  match l with
  | [] => [x]
  | y :: l' => if less y x then y :: insertSorted less x l' else x :: l
  end.

Definition insertionSort (less : Command -> Command -> bool)
  (l : list Command) : list Command :=
  fold_right (insertSorted less) [] l.

(** An environment in which the framework's initialisation adds nothing,
    paths are joined with a slash, the date is fixed, and the operation
    fails on the files listed in [broken]. *)
Definition envWith (broken : list string) : Env := {|
  InitDefaultHelpCmd := fun cmd => cmd;
  InitDefaultHelpFlag := fun cmd => cmd;
  sort_Sort := insertionSort;
  filepath_Join := fun dir base => dir ++ "/" ++ base;
  time_Now := fun _ => mkDate 2 January 2006;
  os_Create := fun _ f =>
    if existsb (String.eqb f) broken then Some "permission denied" else None;
  file_Write := fun _ _ _ => None
|}.

Definition quietEnv : Env := envWith [].

Definition noFlags : FlagSet := mkFlagSet false "".

(** A runnable, available command below the root "app". *)
Definition leafCmd (name short : string) (tagOff : bool) : Command :=
  mkCommand name short "" "" ("app " ++ name) true true false tagOff
    noFlags noFlags [].

(** An available command group. *)
Definition groupCmd (name short : string) (tagOff : bool)
  (cs : list Command) : Command :=
  mkCommand name short "" "" name false true false tagOff noFlags noFlags cs.

(** A hidden command group: cobra reports it as not available, whatever is
    below it. *)
Definition hiddenCmd (name short : string) (cs : list Command) : Command :=
  mkCommand name short "" "" name false false false false noFlags noFlags cs.

Definition appSub : Command := leafCmd "sub" "Sub command" false.
Definition appTree : Command := groupCmd "app" "Root app" false [appSub].

Definition deepLeaf : Command := leafCmd "leaf" "A leaf" false.
Definition hiddenMid : Command := hiddenCmd "mid" "Hidden group" [deepLeaf].
Definition hiddenTree : Command :=
  groupCmd "app" "Root app" false [hiddenMid; appSub].

Definition silentRoot : Command := groupCmd "app" "Root app" true [appSub].

(** A runnable command with flags of its own and inherited flags. *)
Definition flaggedSub : Command :=
  mkCommand "sub" "Sub command" "" "app sub --name x" "app sub [flags]"
    true true false false
    (mkFlagSet true "--name string   the name (required)")
    (mkFlagSet true "--profile string   the profile to use")
    [].

Definition twinA : Command := leafCmd "twin" "first" false.
Definition twinB : Command := leafCmd "twin" "second" false.
Definition twinTree : Command := groupCmd "app" "Root app" false [twinA; twinB].

Definition unsortedTree : Command :=
  groupCmd "app" "Root app" false
    [leafCmd "zeta" "z" false; leafCmd "Beta" "b" false;
     leafCmd "alpha" "a" false].

(** ** Files as the trace leaves them *)

(** A space becomes an underscore, every other byte stays. *)
Definition underscore (c : ascii) : ascii :=
  if Ascii.eqb c " "%char then "_"%char else c.

(** The discipline of the file handles. [runFiles st t] follows the events
    [t] from the state [st] (the file that is open, if one is) and gives the
    state at the end, or [None] when an event breaks the discipline: a file
    is created while another is open, or a file that is not the open one is
    written or closed. *)
Fixpoint runFiles (st : option string) (t : trace) : option (option string) :=
  match t with
  | [] => Some st
  | EvCreate f err :: t' =>
      match st with
      | Some _ => None
      | None =>
          match err with
          | None => runFiles (Some f) t'
          | Some _ => runFiles None t'
          end
      end
  | EvWrite f _ _ :: t' =>
      match st with
      | Some g => if String.eqb f g then runFiles st t' else None
      | None => None
      end
  | EvClose f :: t' =>
      match st with
      | Some g => if String.eqb f g then runFiles None t' else None
      | None => None
      end
  end.

(** The bytes of the file [f] after the events [t], when it held [cur]
    before ([None]: no such file): [os.Create] truncates the file, a write
    that returns no error appends its data. *)
Fixpoint fileContent (f : string) (t : trace) (cur : option string)
  : option string :=
  match t with
  | [] => cur
  | EvCreate g None :: t' =>
      fileContent f t' (if String.eqb g f then Some "" else cur)
  | EvWrite g data None :: t' =>
      fileContent f t'
        (if String.eqb g f
         then match cur with Some c => Some (c ++ data) | None => None end
         else cur)
  | _ :: t' => fileContent f t' cur
  end.

(** * Properties *)

(** ** Strings *)

Lemma append_assoc (a b c : string) : (a ++ b) ++ c = a ++ (b ++ c).
Proof. induction a as [|x a IH]; simpl; [reflexivity | now rewrite IH]. Qed.

Lemma append_nil_r (a : string) : a ++ "" = a.
Proof. induction a as [|x a IH]; simpl; [reflexivity | now rewrite IH]. Qed.

Lemma length_append (a b : string) :
  String.length (a ++ b) = String.length a + String.length b.
Proof. induction a as [|x a IH]; simpl; [reflexivity | now rewrite IH]. Qed.



(** Replacing the one-byte string [old] by the one-byte string [new] maps
    the bytes of the string one by one. *)
Lemma ReplaceAll_byte (o n : ascii) (s : string) :
  ReplaceAll s (String o "") (String n "") =
  mapBytes (fun c => if Ascii.eqb c o then n else c) s.
Proof.
  unfold ReplaceAll.
  induction s as [|c s IH]; simpl; [reflexivity |].
  unfold HasPrefix; simpl.
  rewrite (Ascii.eqb_sym o c).
  destruct (Ascii.eqb c o); simpl; now rewrite IH.
Qed.

Lemma ReplaceAll_hyphen (s : string) :
  ReplaceAll s " " "-" = mapBytes hyphenate s.
Proof. apply ReplaceAll_byte. Qed.

Lemma length_mapBytes (f : ascii -> ascii) (s : string) :
  String.length (mapBytes f s) = String.length s.
Proof. induction s as [|c s IH]; simpl; [reflexivity | now rewrite IH]. Qed.

Lemma splitLines_not_nil (s : string) : splitLines s <> [].
Proof.
  induction s as [|c s IH]; simpl; [discriminate |].
  destruct (Ascii.eqb c nl_char); [discriminate |].
  destruct (splitLines s); discriminate.
Qed.

Lemma joinLines_cons_byte (c : ascii) (l : string) (ls : list string) :
  joinLines (String c l :: ls) = String c (joinLines (l :: ls)).
Proof. destruct ls; reflexivity. Qed.

(** Joining the lines of a string gives the string back. *)
Lemma joinLines_splitLines (s : string) : joinLines (splitLines s) = s.
Proof.
  induction s as [|c s IH]; [reflexivity |].
  simpl. destruct (Ascii.eqb c nl_char) eqn:Hc.
  - apply Ascii.eqb_eq in Hc; subst c.
    destruct (splitLines s) as [|l ls] eqn:Hs.
    + now destruct (splitLines_not_nil s).
    + unfold joinLines in *. simpl in *. now rewrite IH.
  - destruct (splitLines s) as [|l ls] eqn:Hs.
    + now destruct (splitLines_not_nil s).
    + now rewrite joinLines_cons_byte, IH.
Qed.

(** ** [indentString] *)

Lemma indentLoop_res (p b res : string) (bol : bool) :
  indentLoop p b res bol = res ++ indentLoop p b "" bol.
Proof.
  revert res bol.
  induction b as [|c b IH]; intros res bol; simpl.
  - now rewrite append_nil_r.
  - rewrite IH.
    rewrite (IH ((if bol && negb (Ascii.eqb c nl_char) then p else "")
                 ++ String c "")).
    destruct (bol && negb (Ascii.eqb c nl_char));
      now rewrite ?append_assoc.
Qed.

Lemma indentLoop_step (p b : string) (c : ascii) (bol : bool) :
  indentLoop p (String c b) "" bol =
  (if bol && negb (Ascii.eqb c nl_char) then p else "")
  ++ String c (indentLoop p b "" (Ascii.eqb c nl_char)).
Proof.
  simpl. rewrite indentLoop_res.
  destruct (bol && negb (Ascii.eqb c nl_char)); now rewrite ?append_assoc.
Qed.

(** Line by line: [indentString] puts the one-space prefix before every
    line that is not empty. When the loop starts inside a line, the rest of
    that line is left alone. *)
Lemma splitLines_indentLoop (s : string) :
  splitLines (indentLoop " " s "" true) = map (indentLine " ") (splitLines s)
  /\ splitLines (indentLoop " " s "" false) =
     match splitLines s with
     | l :: ls => l :: map (indentLine " ") ls
     | [] => []
     end.
Proof.
  induction s as [|c s [IHt IHf]]; [split; reflexivity |].
  rewrite !indentLoop_step.
  destruct (Ascii.eqb c nl_char) eqn:Hc; simpl; rewrite Hc.
  - rewrite IHt. split; reflexivity.
  - rewrite IHf.
    destruct (splitLines s) as [|l ls] eqn:Hs.
    + now destruct (splitLines_not_nil s).
    + split; reflexivity.
Qed.

Lemma stripLine_indentLine (l : string) :
  stripLine " " (indentLine " " l) = l.
Proof. destruct l; reflexivity. Qed.

(** C8. Round trip of [indentString]: indenting a string with the one-space
    prefix and then removing that prefix from every line of the result that
    is not empty gives the string back. *)
Theorem indentString_strip_roundtrip (s : string) :
  stripPrefixLines (indentString s " ") " " = s.
Proof.
  unfold stripPrefixLines, indentString.
  destruct (splitLines_indentLoop s) as [-> _].
  rewrite map_map.
  rewrite (map_ext _ (fun l => l) stripLine_indentLine), map_id.
  apply joinLines_splitLines.
Qed.

(** ** The page of one command *)

Section PageProperties.

Context {E : Env}.

Lemma printOptionsReST_no_error (buf : string) (cmd : Command) :
  snd (printOptionsReST buf cmd) = None.
Proof. reflexivity. Qed.

(** [printOptionsReST] only appends to the buffer. *)
Lemma printOptionsReST_appends (buf : string) (cmd : Command) :
  printOptionsReST buf cmd = (buf ++ fst (printOptionsReST "" cmd), None).
Proof.
  unfold printOptionsReST.
  destruct (HasAvailableFlags (NonInheritedFlags cmd));
    destruct (HasAvailableFlags (InheritedFlags cmd));
    cbn [fst]; f_equal; rewrite ?append_assoc, ?append_nil_r; reflexivity.
Qed.

(** The page is the sequence of its blocks, and the command that
    [renderPage] leaves is the one the "See Also" block leaves. *)
Lemma renderPage_layout (anc : list Command) (cmd : Command)
  (linkHandler : string -> string -> string) (now : Date) :
  let c0 := initialised cmd in
  let name := CommandPath anc c0 in
  let long := if String.eqb (Long c0) "" then Short c0 else Long c0 in
  let see := seeAlsoBlock anc c0 name linkHandler in
  renderPage anc cmd linkHandler now =
  (titleBlock name (Short c0) long ++ usageBlock c0
   ++ fst (printOptionsReST "" c0) ++ examplesBlock c0 ++ fst see
   ++ footerBlock (snd see) now,
   snd see, None).
Proof.
  intros c0 name long see. unfold renderPage.
  fold (initialised cmd). fold c0. fold name. fold long.
  rewrite printOptionsReST_appends. fold see.
  destruct see as [s c]. cbn [fst snd].
  rewrite ?append_assoc. reflexivity.
Qed.


(** C10. When the inherited flags have a displayable flag, the heading
    "Inherited Options" (17 bytes) is underlined by 38 tildes, while the
    rules under "Options" and "Examples", when these sections are there,
    are as long as their headings. *)
Theorem inherited_options_rule_is_fixed (anc : list Command) (cmd : Command)
  (linkHandler : string -> string -> string) (now : Date) :
  let c0 := initialised cmd in
  let name := CommandPath anc c0 in
  let long := if String.eqb (Long c0) "" then Short c0 else Long c0 in
  HasAvailableFlags (InheritedFlags c0) = true ->
  exists own inherited examples rest,
    fst (fst (renderPage anc cmd linkHandler now)) =
      titleBlock name (Short c0) long ++ usageBlock c0
      ++ own
      ++ ("Inherited Options" ++ nl ++ Repeat "~" 38 ++ nl ++ inherited)
      ++ examples ++ rest
    /\ String.length "Inherited Options" = 17
    /\ (if HasAvailableFlags (NonInheritedFlags c0)
        then exists table,
          own = "Options" ++ nl ++ Repeat "~" (String.length "Options") ++ nl
                ++ table
        else own = "")
    /\ (if Nat.ltb 0 (String.length (Example c0))
        then exists code,
          examples = "Examples" ++ nl
                     ++ Repeat "~" (String.length "Examples") ++ nl ++ code
        else examples = "").
Proof.
  intros c0 name long Hinh.
  pose proof (renderPage_layout anc cmd linkHandler now) as L.
  cbv zeta in L. rewrite L. cbn [fst]. fold c0 name long.
  assert (Hex : if Nat.ltb 0 (String.length (Example c0))
                then exists code,
                  examplesBlock c0 =
                    "Examples" ++ nl
                    ++ Repeat "~" (String.length "Examples") ++ nl ++ code
                else examplesBlock c0 = "").
  { unfold examplesBlock.
    destruct (Nat.ltb 0 (String.length (Example c0))); [| reflexivity].
    eexists. rewrite ?append_assoc. cbn [append Repeat String.length].
    reflexivity. }
  set (see := seeAlsoBlock anc c0 name linkHandler).
  set (table := fun fs : FlagSet =>
         nl ++ ".. list-table::" ++ nl ++ tableHeader
         ++ indentString (FlagUsages fs) " " ++ nl).
  exists (if HasAvailableFlags (NonInheritedFlags c0)
          then "Options" ++ nl ++ Repeat "~" (String.length "Options") ++ nl
               ++ table (NonInheritedFlags c0)
          else ""),
         (table (InheritedFlags c0)), (examplesBlock c0),
         (fst see ++ footerBlock (snd see) now).
  split; [| split; [reflexivity | split; [| exact Hex]]].
  - unfold printOptionsReST. rewrite Hinh. subst table.
    destruct (HasAvailableFlags (NonInheritedFlags c0));
      cbn [fst]; rewrite ?append_assoc; cbn [append Repeat String.length];
      rewrite ?append_assoc; reflexivity.
  - destruct (HasAvailableFlags (NonInheritedFlags c0)); [| reflexivity].
    eexists; reflexivity.
Qed.

End PageProperties.

(** ** Orders on names and lists *)

Lemma compare_lt_trans (a b c : string) :
  String.compare a b = Lt -> String.compare b c = Lt ->
  String.compare a c = Lt.
Proof.
  revert b c.
  induction a as [|x a IH]; intros [|y b] [|z c]; simpl;
    try discriminate; try reflexivity.
  unfold Ascii.compare.
  destruct (N.compare_spec (N_of_ascii x) (N_of_ascii y)) as [Hxy|Hxy|Hxy];
    try discriminate;
    destruct (N.compare_spec (N_of_ascii y) (N_of_ascii z)) as [Hyz|Hyz|Hyz];
    try discriminate; intros H1 H2.
  - rewrite Hxy, Hyz, N.compare_refl. now apply IH with b.
  - rewrite Hxy. now apply N.compare_lt_iff in Hyz as ->.
  - rewrite <- Hyz. now apply N.compare_lt_iff in Hxy as ->.
  - assert (H : (N_of_ascii x < N_of_ascii z)%N)
      by (now apply N.lt_trans with (N_of_ascii y)).
    now apply N.compare_lt_iff in H as ->.
Qed.

Lemma leb_ltb (a b : string) : String.leb a b = negb (String.ltb b a).
Proof.
  unfold String.leb, String.ltb. rewrite (String.compare_antisym b a).
  now destruct (String.compare a b).
Qed.

Lemma leb_cases (a b : string) :
  String.leb a b = true <-> String.compare a b = Lt \/ a = b.
Proof.
  unfold String.leb. split.
  - destruct (String.compare a b) eqn:H; try discriminate; intros _.
    + right. now apply String.compare_eq_iff.
    + now left.
  - intros [-> | ->]; [reflexivity |].
    replace (String.compare b b) with Eq; [reflexivity |].
    symmetry. destruct (String.compare b b) eqn:H; [reflexivity | |];
      pose proof (String.compare_antisym b b) as A; rewrite H in A;
      discriminate.
Qed.

Lemma leb_trans (a b c : string) :
  String.leb a b = true -> String.leb b c = true -> String.leb a c = true.
Proof.
  rewrite !leb_cases. intros [H1 | ->] [H2 | ->]; auto.
  left. now apply compare_lt_trans with b.
Qed.

Lemma byName_Less_negtrans (a b c : Command) :
  byName_Less a b = false -> byName_Less b c = false ->
  byName_Less a c = false.
Proof.
  unfold byName_Less. intros H1 H2.
  assert (L1 : String.leb (Name b) (Name a) = true)
    by (now rewrite leb_ltb, H1).
  assert (L2 : String.leb (Name c) (Name b) = true)
    by (now rewrite leb_ltb, H2).
  pose proof (leb_trans _ _ _ L2 L1) as L. rewrite leb_ltb in L.
  now destruct (String.ltb (Name a) (Name c)).
Qed.

Lemma byName_Less_asym (a b : Command) :
  byName_Less a b = true -> byName_Less b a = false.
Proof.
  unfold byName_Less, String.ltb.
  rewrite (String.compare_antisym (Name a) (Name b)).
  now destruct (String.compare (Name b) (Name a)).
Qed.

Lemma Permutation_filter_same {A : Type} (f : A -> bool) (l l' : list A) :
  Permutation l l' -> Permutation (filter f l) (filter f l').
Proof.
  induction 1 as [| x l l' _ IH | x y l | l l' l'' _ IH1 _ IH2]; simpl.
  - constructor.
  - destruct (f x); [now constructor | assumption].
  - destruct (f x), (f y); try reflexivity. constructor.
  - now transitivity (filter f l').
Qed.

Lemma StronglySorted_filter_same {A : Type} (R : A -> A -> Prop)
  (f : A -> bool) (l : list A) :
  StronglySorted R l -> StronglySorted R (filter f l).
Proof.
  induction 1 as [| x l _ IH Hx]; simpl; [constructor |].
  destruct (f x); [| assumption].
  constructor; [assumption |].
  rewrite Forall_forall in *. intros y Hy.
  apply filter_In in Hy. now apply Hx.
Qed.

Lemma StronglySorted_weaken {A : Type} (R S : A -> A -> Prop) (l : list A) :
  (forall a b, In a l -> In b l -> R a b -> S a b) ->
  StronglySorted R l -> StronglySorted S l.
Proof.
  intros HRS H. induction H as [| x l _ IH Hx]; [constructor |].
  constructor.
  - apply IH. intros a b Ha Hb. apply HRS; now right.
  - rewrite Forall_forall in *. intros y Hy.
    apply HRS; [now left | now right | now apply Hx].
Qed.

(** A list in ascending order of names whose names are pairwise different
    is in strictly ascending order. *)
Lemma ascending_NoDup_strict (cs : list Command) :
  ascendingNames cs -> NoDup (map Name cs) -> strictlyAscendingNames cs.
Proof.
  unfold ascendingNames, strictlyAscendingNames.
  induction 1 as [| x l _ IH Hx]; intros ND; [constructor |].
  simpl in ND. apply NoDup_cons_iff in ND as [Hnin ND].
  constructor; [now apply IH |].
  rewrite Forall_forall in *. intros y Hy.
  specialize (Hx y Hy). apply leb_cases in Hx as [Hlt | Heq].
  - unfold String.ltb. now rewrite Hlt.
  - exfalso. apply Hnin. rewrite Heq. now apply in_map.
Qed.

Lemma concat_empty_cons (x : string) (l : list string) :
  String.concat "" (x :: l) = x ++ String.concat "" l.
Proof. destruct l; simpl; [now rewrite append_nil_r | reflexivity]. Qed.

(** ** "See Also", the tag and the footer *)

Lemma set_DisableAutoGenTag_same (cmd : Command) :
  set_DisableAutoGenTag cmd (DisableAutoGenTag cmd) = cmd.
Proof. now destruct cmd. Qed.

Lemma set_DisableAutoGenTag_twice (cmd : Command) (a b : bool) :
  set_DisableAutoGenTag (set_DisableAutoGenTag cmd a) b =
  set_DisableAutoGenTag cmd b.
Proof. reflexivity. Qed.

(** The walk up the ancestors sets the command's tag when one of them has
    it set, and writes to nothing else. *)
Lemma VisitParents_propagateDisable (anc : list Command) (cmd : Command) :
  VisitParents anc propagateDisable cmd =
  set_DisableAutoGenTag cmd
    (DisableAutoGenTag cmd || existsb DisableAutoGenTag anc).
Proof.
  revert cmd. induction anc as [|p g IH]; intros cmd; simpl.
  - now rewrite orb_false_r, set_DisableAutoGenTag_same.
  - rewrite IH. unfold propagateDisable.
    destruct (DisableAutoGenTag p) eqn:Hp; simpl.
    + now rewrite orb_true_r.
    + reflexivity.
Qed.

Lemma skipped_eligible (c : Command) : skipped c = negb (eligible c).
Proof.
  unfold skipped, eligible.
  now destruct (IsAvailableCommand c), (IsAdditionalHelpTopicCommand c).
Qed.

Lemma hasSeeAlso_range_eligible (cs : list Command) :
  hasSeeAlso_range cs = existsb eligible cs.
Proof.
  induction cs as [|c cs IH]; simpl; [reflexivity |].
  rewrite skipped_eligible. now destruct (eligible c).
Qed.

(** The loop over the children writes one line for each eligible child, in
    the order of the slice. *)
Lemma seeAlso_range_lines (linkHandler : string -> string -> string)
  (name : string) (cs : list Command) (buf : string) :
  seeAlso_range linkHandler name cs buf =
  buf ++ String.concat "" (map (childLine linkHandler name)
                             (filter eligible cs)).
Proof.
  revert buf. induction cs as [|c cs IH]; intros buf.
  - simpl. now rewrite append_nil_r.
  - cbn [seeAlso_range filter]. rewrite skipped_eligible.
    destruct (eligible c); cbn [negb map].
    + rewrite IH, concat_empty_cons, append_assoc. reflexivity.
    + apply IH.
Qed.

Lemma existsb_filter_nil {A : Type} (f : A -> bool) (l : list A) :
  existsb f l = false <-> filter f l = [].
Proof.
  induction l as [|x l IH]; simpl; [tauto |].
  destruct (f x); simpl; [split; discriminate | exact IH].
Qed.

Lemma appendInt_four_digits_check :
  forallb (fun y => Nat.eqb (String.length (appendInt y 4)) 4)
    (seq 0 10000) = true.
Proof. vm_compute. reflexivity. Qed.

(** Up to the year 9999 the layout element [2006] gives four digits. *)
Lemma appendInt_four_digits (y : nat) :
  y <= 9999 -> String.length (appendInt y 4) = 4.
Proof.
  intros Hy. pose proof appendInt_four_digits_check as H.
  rewrite forallb_forall in H.
  apply Nat.eqb_eq, H, in_seq. split; [apply Nat.le_0_l |].
  change (y < S 9999). now apply Nat.lt_succ_r.
Qed.

Section SeeAlsoProperties.

Context {E : Env}.

(** The command that the "See Also" block leaves. *)
Lemma seeAlsoBlock_command (anc : list Command) (c0 : Command)
  (name : string) (linkHandler : string -> string -> string) :
  snd (seeAlsoBlock anc c0 name linkHandler) =
  if hasSeeAlso anc c0 then
    set_Commands
      (set_DisableAutoGenTag c0
         (DisableAutoGenTag c0 || existsb DisableAutoGenTag anc))
      (sort_Sort byName_Less (Commands c0))
  else c0.
Proof.
  unfold seeAlsoBlock. destruct (hasSeeAlso anc c0); [| reflexivity].
  destruct anc as [|p g].
  - cbn [seeAlsoParent snd existsb].
    now rewrite orb_false_r, set_DisableAutoGenTag_same.
  - cbn [seeAlsoParent snd]. now rewrite VisitParents_propagateDisable.
Qed.

Lemma seeAlsoBlock_tag (anc : list Command) (c0 : Command)
  (name : string) (linkHandler : string -> string -> string) :
  DisableAutoGenTag (snd (seeAlsoBlock anc c0 name linkHandler)) =
  DisableAutoGenTag c0 || existsb DisableAutoGenTag anc.
Proof.
  rewrite seeAlsoBlock_command. unfold hasSeeAlso.
  destruct anc as [|p g]; cbn [HasParent existsb].
  - rewrite orb_false_r. now destruct (hasSeeAlso_range (Commands c0)).
  - reflexivity.
Qed.

(** The text of the "See Also" block. *)
Lemma seeAlsoBlock_text (anc : list Command) (c0 : Command)
  (name : string) (linkHandler : string -> string -> string) :
  fst (seeAlsoBlock anc c0 name linkHandler) =
  if HasParent anc || existsb eligible (Commands c0) then
    "See Also" ++ nl ++ "~~~~~~~~" ++ nl ++ nl
    ++ match anc with
       | parent :: grand => parentLine linkHandler grand parent
       | [] => ""
       end
    ++ String.concat ""
         (map (childLine linkHandler name)
            (filter eligible (sort_Sort byName_Less (Commands c0))))
    ++ nl
  else "".
Proof.
  unfold seeAlsoBlock, hasSeeAlso. rewrite hasSeeAlso_range_eligible.
  destruct anc as [|p g]; cbn [HasParent orb].
  - destruct (existsb eligible (Commands c0)); [| reflexivity].
    cbn [seeAlsoParent fst Commands set_Commands].
    rewrite seeAlso_range_lines.
    rewrite ?append_assoc, ?append_nil_r. reflexivity.
  - cbn [seeAlsoParent fst].
    rewrite VisitParents_propagateDisable.
    cbn [Commands set_DisableAutoGenTag].
    rewrite seeAlso_range_lines. unfold parentLine.
    rewrite ?append_assoc. reflexivity.
Qed.

(** C4. When an ancestor of the command has [DisableAutoGenTag] set,
    rendering the page sets the command's own [DisableAutoGenTag]. The
    footer line is the last thing of the page exactly when the command's
    tag is false after that; it carries the date as day (not padded), short
    month name and year, which has four digits up to the year 9999. *)
Theorem autogen_tag_propagates_and_decides_footer
  (anc : list Command) (cmd : Command)
  (linkHandler : string -> string -> string) (now : Date) :
  let c0 := initialised cmd in
  let name := CommandPath anc c0 in
  let long := if String.eqb (Long c0) "" then Short c0 else Long c0 in
  let page := fst (fst (renderPage anc cmd linkHandler now)) in
  let cmd' := snd (fst (renderPage anc cmd linkHandler now)) in
  (existsb DisableAutoGenTag anc = true -> DisableAutoGenTag cmd' = true)
  /\ page =
       (titleBlock name (Short c0) long ++ usageBlock c0
        ++ fst (printOptionsReST "" c0) ++ examplesBlock c0
        ++ fst (seeAlsoBlock anc c0 name linkHandler))
       ++ (if DisableAutoGenTag cmd' then "" else footerLine now)
  /\ String.length (shortMonthName (month now)) = 3
  /\ (year now <= 9999 -> String.length (appendInt (year now) 4) = 4).
Proof.
  intros c0 name long page cmd'. subst page cmd'.
  pose proof (renderPage_layout anc cmd linkHandler now) as L.
  cbv zeta in L. rewrite L. cbn [fst snd]. fold c0 name long.
  split; [| split; [| split]].
  - intros H. rewrite seeAlsoBlock_tag, H. apply orb_true_r.
  - rewrite ?append_assoc. do 5 f_equal.
    unfold footerBlock, footerLine, Format_2_Jan_2006.
    destruct (DisableAutoGenTag (snd (seeAlsoBlock anc c0 name linkHandler)));
      cbn [negb]; rewrite ?append_assoc; reflexivity.
  - now destruct (month now).
  - apply appendInt_four_digits.
Qed.

(** C5, as the code has it. "See Also" is written when the command has a
    parent or an eligible child. It holds the line of the parent, if there
    is one, and then one line for each eligible child; these children are
    listed in ascending order of their names, whatever their order in the
    tree, and in strictly ascending order when no two of them have the same
    name. *)
Theorem see_also_parent_then_children_by_name {SC : SortContract E}
  (anc : list Command) (cmd : Command)
  (linkHandler : string -> string -> string) (now : Date) :
  let c0 := initialised cmd in
  let name := CommandPath anc c0 in
  let long := if String.eqb (Long c0) "" then Short c0 else Long c0 in
  let r := renderPage anc cmd linkHandler now in
  exists listed,
    Permutation listed (filter eligible (Commands c0))
    /\ ascendingNames listed
    /\ (NoDup (map Name listed) -> strictlyAscendingNames listed)
    /\ fst (fst r) =
         (titleBlock name (Short c0) long ++ usageBlock c0
          ++ fst (printOptionsReST "" c0) ++ examplesBlock c0)
         ++ match anc, listed with
            | [], [] => ""
            | _, _ =>
                "See Also" ++ nl ++ "~~~~~~~~" ++ nl ++ nl
                ++ match anc with
                   | parent :: grand => parentLine linkHandler grand parent
                   | [] => ""
                   end
                ++ String.concat "" (map (childLine linkHandler name) listed)
                ++ nl
            end
         ++ footerBlock (snd (fst r)) now.
Proof.
  intros c0 name long r. subst r.
  pose proof (renderPage_layout anc cmd linkHandler now) as L.
  cbv zeta in L. rewrite L. cbn [fst snd]. fold c0 name long.
  set (listed := filter eligible (sort_Sort byName_Less (Commands c0))).
  assert (Hperm : Permutation listed (filter eligible (Commands c0))).
  { apply Permutation_filter_same. symmetry. apply sort_Sort_perm. }
  assert (Hasc : ascendingNames listed).
  { unfold ascendingNames. apply StronglySorted_filter_same.
    eapply StronglySorted_weaken;
      [| apply (sort_Sort_sorted byName_Less (Commands c0)
                  byName_Less_negtrans byName_Less_asym)].
    intros a b _ _ H. cbv beta in H. unfold byName_Less in H.
    now rewrite leb_ltb, H. }
  exists listed. split; [exact Hperm |]. split; [exact Hasc |].
  split; [now apply ascending_NoDup_strict |].
  rewrite seeAlsoBlock_text. fold listed.
  assert (Hex : existsb eligible (Commands c0) =
                match listed with [] => false | _ :: _ => true end).
  { destruct (existsb eligible (Commands c0)) eqn:Hx.
    - destruct listed as [|x l] eqn:Hl; [| reflexivity].
      apply Permutation_nil in Hperm.
      apply existsb_filter_nil in Hperm. congruence.
    - apply existsb_filter_nil in Hx. rewrite Hx in Hperm.
      apply Permutation_sym, Permutation_nil in Hperm. now rewrite Hperm. }
  rewrite Hex, ?append_assoc. do 4 f_equal.
  destruct anc as [|p g], listed as [|x l]; reflexivity.
Qed.

End SeeAlsoProperties.

(** ** What rendering writes to the command *)

Section FrameProperties.

Context {E : Env}.

(** [GenCustom] writes the rendered page to [w] and leaves the command as
    [renderPage] leaves it. *)
Lemma GenCustom_renderPage (anc : list Command) (cmd : Command) (w : Writer)
  (linkHandler : string -> string -> string) (t : trace) :
  let r := renderPage anc cmd linkHandler (time_Now t) in
  GenCustom anc cmd w linkHandler t =
  (fst (w (fst (fst r)) t), snd (fst r), snd (w (fst (fst r)) t)).
Proof.
  intros r. unfold GenCustom. fold r.
  assert (Hr : snd r = None).
  { subst r. pose proof (renderPage_layout anc cmd linkHandler (time_Now t))
      as L. cbv zeta in L. now rewrite L. }
  destruct r as [[buf c] e]. cbn [fst snd] in *. subst e.
  now destruct (w buf t).
Qed.


End FrameProperties.

(** ** The tree walker *)

(** Induction on a command with the property known for all its children. *)
Lemma Command_tree_ind (P : Command -> Prop) :
  (forall cmd, Forall P (Commands cmd) -> P cmd) -> forall cmd, P cmd.
Proof.
  intros H. fix IH 1. intros cmd. apply H.
  destruct cmd as [n s l e u r a h d f i cs]. cbn [Commands].
  induction cs as [|c cs IHcs]; constructor; [apply IH | exact IHcs].
Qed.

Lemma Pages_app (d1 d2 : trace) (f1 f2 : list string) :
  Pages d1 f1 -> Pages d2 f2 -> Pages (d1 ++ d2)%list (f1 ++ f2)%list.
Proof.
  induction 1 as [| f p g d fs _ IH]; intros H2; [exact H2 |].
  rewrite <- !app_assoc. cbn [app].
  apply (Pages_cons f p g). now apply IH.
Qed.

Lemma Pages_created (d : trace) (fs : list string) :
  Pages d fs -> created d = fs.
Proof. induction 1 as [| f p g d fs _ IH]; simpl; [reflexivity | now rewrite IH]. Qed.

Lemma Pages_no_failure (d : trace) (fs : list string) :
  Pages d fs -> Forall (fun e => failed e = false) d.
Proof.
  induction 1 as [| f p g d fs _ IH]; [constructor |].
  unfold pageEvents. cbn [app]. repeat (constructor; [reflexivity |]).
  exact IH.
Qed.

Lemma Pages_files (d : trace) (fs : list string) :
  Pages d fs -> Forall (fun e => In (eventFile e) fs) d.
Proof.
  induction 1 as [| f p g d fs _ IH]; [constructor |].
  unfold pageEvents. cbn [app].
  repeat (constructor; [now left |]).
  eapply Forall_impl; [| exact IH]. intros e He. now right.
Qed.

Lemma Failing_files (f : string) (err : error) (d : trace) :
  Failing f err d -> Forall (fun e => eventFile e = f) d.
Proof. destruct 1; repeat constructor. Qed.

Lemma Pages_single (d : trace) (f : string) :
  Pages d [f] -> exists prepended page, d = pageEvents f prepended page.
Proof.
  intros H. inversion H as [| f0 p g d0 fs H0]; subst.
  inversion H0; subst. exists p, g. now rewrite app_nil_r.
Qed.

(** A run without error, followed by a run. *)
Lemma RunOf_then (ps1 ps2 : list string) (d1 d2 : trace)
  (err : option error) :
  RunOf ps1 d1 None -> RunOf ps2 d2 err ->
  RunOf (ps1 ++ ps2)%list (d1 ++ d2)%list err.
Proof.
  intros H1 H2. destruct err as [e|]; cbn [RunOf] in *.
  - destruct H2 as (pre & fs & f & bad & rest & -> & Hp & Hb & ->).
    exists (d1 ++ pre)%list, (ps1 ++ fs)%list, f, bad, rest.
    repeat split; auto using app_assoc, Pages_app.
    now rewrite <- app_assoc.
  - now apply Pages_app.
Qed.

(** A run that stopped on an error: what would have followed is not run. *)
Lemma RunOf_stop (ps1 ps2 : list string) (d1 : trace) (e : error) :
  RunOf ps1 d1 (Some e) -> RunOf (ps1 ++ ps2)%list d1 (Some e).
Proof.
  cbn [RunOf]. intros (pre & fs & f & bad & rest & -> & Hp & Hb & ->).
  exists pre, fs, f, bad, (rest ++ ps2)%list. repeat split; auto.
  now rewrite <- app_assoc.
Qed.

Lemma CommandPath_set_Commands (anc : list Command) (cmd : Command)
  (cs : list Command) :
  CommandPath anc (set_Commands cmd cs) = CommandPath anc cmd.
Proof. destruct anc; reflexivity. Qed.

Lemma walkOrder_eq (anc : list Command) (cmd : Command) :
  walkOrder anc cmd =
  (flat_map (fun c => if skipped c then [] else walkOrder (cmd :: anc) c)
     (Commands cmd) ++ [(anc, cmd)])%list.
Proof. destruct cmd; reflexivity. Qed.

Lemma walkOrder_root (anc : list Command) (cmd : Command) :
  In (anc, cmd) (walkOrder anc cmd).
Proof. rewrite walkOrder_eq. apply in_or_app. right. now left. Qed.

Lemma walkOrder_In (anc : list Command) (cmd : Command)
  (x : list Command * Command) :
  In x (walkOrder anc cmd) <->
  x = (anc, cmd)
  \/ exists c, In c (Commands cmd) /\ eligible c = true
               /\ In x (walkOrder (cmd :: anc) c).
Proof.
  rewrite walkOrder_eq, in_app_iff, in_flat_map. split.
  - intros [(c & Hc & Hx) | [<- | []]]; [right | now left].
    exists c. rewrite skipped_eligible in Hx.
    destruct (eligible c); [now auto | now destruct Hx].
  - intros [-> | (c & Hc & He & Hx)]; [right; now left | left].
    exists c. rewrite skipped_eligible, He. now split.
Qed.

Lemma Reached_trans (anc : list Command) (root : Command)
  (a : list Command) (p : Command) (a' : list Command) (c : Command) :
  Reached anc root a p -> Reached a p a' c -> Reached anc root a' c.
Proof.
  intros H1 H2. induction H2 as [| a2 p2 c2 _ IH Hin He]; [exact H1 |].
  now apply Reached_child.
Qed.

Lemma walkOrder_Reached (cmd : Command) :
  forall anc a c, In (a, c) (walkOrder anc cmd) -> Reached anc cmd a c.
Proof.
  induction cmd as [cmd IH] using Command_tree_ind. intros anc a c Hin.
  apply walkOrder_In in Hin as [[= -> ->] | (ch & Hch & He & Hin)].
  - constructor.
  - rewrite Forall_forall in IH.
    apply Reached_trans with (cmd :: anc) ch.
    + apply Reached_child; [constructor | assumption | assumption].
    + now apply IH.
Qed.

Lemma walkOrder_trans (cmd : Command) :
  forall anc a p x,
    In (a, p) (walkOrder anc cmd) -> In x (walkOrder a p) ->
    In x (walkOrder anc cmd).
Proof.
  induction cmd as [cmd IH] using Command_tree_ind. intros anc a p x Hp Hx.
  apply walkOrder_In in Hp as [[= -> ->] | (ch & Hch & He & Hp)];
    [exact Hx |].
  rewrite Forall_forall in IH.
  apply walkOrder_In. right. exists ch. repeat split; auto.
  now apply IH with a p.
Qed.

Lemma Reached_walkOrder (anc : list Command) (cmd : Command)
  (a : list Command) (c : Command) :
  Reached anc cmd a c -> In (a, c) (walkOrder anc cmd).
Proof.
  induction 1 as [| a p c _ IH Hin He]; [apply walkOrder_root |].
  apply walkOrder_trans with a p; [exact IH |].
  apply walkOrder_In. right. exists c. repeat split; auto.
  apply walkOrder_root.
Qed.

Lemma Reached_below_root_eligible (anc : list Command) (root : Command)
  (a : list Command) (c : Command) :
  Reached anc root a c -> (a, c) = (anc, root) \/ eligible c = true.
Proof. destruct 1; [now left | now right]. Qed.

Section WalkerProperties.

Context {E : Env}.

Variable dir : string.
Variable filePrepender : string -> string.
Variable linkHandler : string -> string -> string.

Lemma GenTreeCustom_eq (anc : list Command) (cmd : Command) (t : trace) :
  GenTreeCustom anc cmd dir filePrepender linkHandler t =
  match
    GenTreeCustom_range
      (fun c => GenTreeCustom (cmd :: anc) c dir filePrepender linkHandler)
      (Commands cmd) t
  with
  | (t, children, Some err) => (t, set_Commands cmd children, Some err)
  | (t, children, None) =>
      genPage anc (set_Commands cmd children) dir filePrepender linkHandler t
  end.
Proof. destruct cmd; reflexivity. Qed.

(** The page of one command: its file is the page path; either the page is
    whole, or the first operation that fails ends it. *)
Lemma genPage_run (anc : list Command) (cmd : Command) (t0 t : trace)
  (cmd' : Command) (err : option error) :
  genPage anc cmd dir filePrepender linkHandler t0 = (t, cmd', err) ->
  exists d, t = (t0 ++ d)%list /\ RunOf [pagePath dir anc cmd] d err.
Proof.
  unfold genPage. rewrite ReplaceAll_hyphen. fold (pagePath dir anc cmd).
  set (f := pagePath dir anc cmd).
  destruct (os_Create t0 f) as [e|] eqn:Hc.
  - intros [= <- <- <-]. exists [EvCreate f (Some e)].
    split; [reflexivity |].
    exists [], [], f, [EvCreate f (Some e)], []. repeat split; constructor.
  - unfold fileWriter at 1. cbv beta zeta.
    destruct (file_Write (t0 ++ [EvCreate f None])%list f (filePrepender f))
      as [e|] eqn:Hw.
    + intros [= <- <- <-].
      exists [EvCreate f None; EvWrite f (filePrepender f) (Some e);
              EvClose f].
      split; [now rewrite <- !app_assoc |].
      exists [], [], f. eexists _, []. repeat split; constructor.
    + rewrite GenCustom_renderPage. cbv zeta. cbn [fst snd].
      set (t2 := ((t0 ++ [EvCreate f None])
                  ++ [EvWrite f (filePrepender f) None])%list).
      set (page := fst (fst (renderPage anc cmd linkHandler (time_Now t2)))).
      unfold fileWriter. cbn [fst snd].
      destruct (file_Write t2 f page) as [e|] eqn:Hp;
        intros [= <- <- <-].
      * exists [EvCreate f None; EvWrite f (filePrepender f) None;
                EvWrite f page (Some e); EvClose f].
        split; [subst t2; now rewrite <- !app_assoc |].
        exists [], [], f. eexists _, []. repeat split; constructor.
      * exists (pageEvents f (filePrepender f) page).
        split; [subst t2; unfold pageEvents; now rewrite <- !app_assoc |].
        cbn [RunOf]. rewrite <- (app_nil_r (pageEvents _ _ _)).
        apply Pages_cons. constructor.
Qed.

(** The loop over the children: the runs of the children that are not
    skipped, one after the other, up to the first error. *)
Lemma GenTreeCustom_range_run
  (walk : Command -> trace -> trace * Command * option error)
  (order : Command -> list string) (cs : list Command) :
  Forall (fun c => forall t0 t c' err, walk c t0 = (t, c', err) ->
            exists d, t = (t0 ++ d)%list /\ RunOf (order c) d err) cs ->
  forall t0 t cs' err,
    GenTreeCustom_range walk cs t0 = (t, cs', err) ->
    exists d,
      t = (t0 ++ d)%list
      /\ RunOf (flat_map (fun c => if skipped c then [] else order c) cs)
           d err.
Proof.
  induction 1 as [| c cs Hc _ IH]; intros t0 t cs' err.
  - intros [= <- <- <-]. exists [].
    split; [now rewrite app_nil_r | constructor].
  - cbn [GenTreeCustom_range flat_map].
    destruct (skipped c).
    + destruct (GenTreeCustom_range walk cs t0) as [[t1 cs1] e1] eqn:Hr.
      intros [= <- <- <-]. now apply (IH t0 t1 cs1).
    + destruct (walk c t0) as [[t1 c1] [e1|]] eqn:Hw.
      * intros [= <- <- <-].
        destruct (Hc _ _ _ _ Hw) as (d1 & -> & Hr1).
        exists d1. split; [reflexivity | now apply RunOf_stop].
      * destruct (GenTreeCustom_range walk cs t1) as [[t2 cs2] e2] eqn:Hr.
        intros [= <- <- <-].
        destruct (Hc _ _ _ _ Hw) as (d1 & -> & Hr1).
        destruct (IH _ _ _ _ Hr) as (d2 & -> & Hr2).
        exists (d1 ++ d2)%list.
        split; [now rewrite app_assoc | now apply RunOf_then].
Qed.

Lemma walkOrder_files (anc : list Command) (cmd : Command) :
  map (pageOf dir) (walkOrder anc cmd) =
  (flat_map
     (fun c => if skipped c then []
               else map (pageOf dir) (walkOrder (cmd :: anc) c))
     (Commands cmd)
   ++ [pagePath dir anc cmd])%list.
Proof.
  rewrite walkOrder_eq, map_app. f_equal.
  induction (Commands cmd) as [|c cs IH]; [reflexivity |].
  cbn [flat_map]. rewrite map_app, IH. now destruct (skipped c).
Qed.

(** The whole walk: it runs over the pages of [walkOrder], in that order. *)
Lemma GenTreeCustom_run (cmd : Command) :
  forall anc t0 t cmd' err,
    GenTreeCustom anc cmd dir filePrepender linkHandler t0 = (t, cmd', err) ->
    exists d,
      t = (t0 ++ d)%list
      /\ RunOf (map (pageOf dir) (walkOrder anc cmd)) d err.
Proof.
  induction cmd as [cmd IH] using Command_tree_ind.
  intros anc t0 t cmd' err.
  rewrite GenTreeCustom_eq, walkOrder_files.
  destruct (GenTreeCustom_range _ (Commands cmd) t0) as [[t1 cs1] e1] eqn:Hr.
  apply (GenTreeCustom_range_run _
           (fun c => map (pageOf dir) (walkOrder (cmd :: anc) c)))
    in Hr as (d1 & -> & Hr1).
  2:{ eapply Forall_impl; [| exact IH]. intros c Hc. apply Hc. }
  destruct e1 as [e1|].
  - intros [= <- <- <-]. exists d1.
    split; [reflexivity | now apply RunOf_stop].
  - intros Hg. apply genPage_run in Hg as (d2 & -> & Hr2).
    unfold pagePath in Hr2. rewrite CommandPath_set_Commands in Hr2.
    fold (pagePath dir anc cmd) in Hr2.
    exists (d1 ++ d2)%list.
    split; [now rewrite app_assoc | now apply RunOf_then].
Qed.

(** C1, as the code has it. A walk that returns no error creates the page
    files of the commands it reaches, in the order of the walk: the command
    it is started on, eligible or not, and below it every command that is
    linked to it by a chain of eligible children. A child that is
    unavailable or a help topic is skipped with everything below it. *)
Theorem walker_creates_pages_of_reached_commands
  (anc : list Command) (cmd : Command) (t0 t : trace) (cmd' : Command) :
  GenTreeCustom anc cmd dir filePrepender linkHandler t0 = (t, cmd', None) ->
  exists d,
    t = (t0 ++ d)%list
    /\ created d = map (pageOf dir) (walkOrder anc cmd)
    /\ (forall a c, In (a, c) (walkOrder anc cmd) <-> Reached anc cmd a c)
    /\ (forall a c, Reached anc cmd a c ->
          (a, c) = (anc, cmd) \/ eligible c = true).
Proof.
  intros H. apply GenTreeCustom_run in H as (d & -> & Hr).
  exists d. split; [reflexivity |]. split; [now apply Pages_created |].
  split; [| apply Reached_below_root_eligible].
  intros a c. split; [apply walkOrder_Reached | apply Reached_walkOrder].
Qed.

(** C2. The walk first runs over the children that are not skipped, each
    with what is below it, and only then turns to the command's own page:
    the events of the own page come last, after the pages of the children
    have been created, written and closed; when a page below fails, the
    command's own file is not created at all. *)
Theorem children_pages_before_own_page
  (anc : list Command) (cmd : Command) (t0 t : trace) (cmd' : Command)
  (res : option error) :
  GenTreeCustom anc cmd dir filePrepender linkHandler t0 = (t, cmd', res) ->
  let below :=
    flat_map
      (fun c => if skipped c then []
                else map (pageOf dir) (walkOrder (cmd :: anc) c))
      (Commands cmd) in
  let own_file := pagePath dir anc cmd in
  exists dc own,
    t = (t0 ++ dc ++ own)%list
    /\ ((Pages dc below /\ res = None
         /\ exists prepended page, own = pageEvents own_file prepended page)
        \/ (Pages dc below
            /\ exists err, res = Some err /\ Failing own_file err own)
        \/ (own = []
            /\ exists err, res = Some err /\ RunOf below dc (Some err))).
Proof.
  intros H below own_file. revert H. rewrite GenTreeCustom_eq.
  destruct (GenTreeCustom_range _ (Commands cmd) t0) as [[t1 cs1] e1] eqn:Hr.
  apply (GenTreeCustom_range_run _
           (fun c => map (pageOf dir) (walkOrder (cmd :: anc) c)))
    in Hr as (d1 & -> & Hr1).
  2:{ rewrite Forall_forall. intros c _ s0 s c' e.
      apply GenTreeCustom_run. }
  fold below in Hr1.
  destruct e1 as [e1|].
  - intros [= <- <- <-]. exists d1, [].
    split; [now rewrite app_nil_r |]. right. right.
    split; [reflexivity |]. now exists e1.
  - intros Hg. apply genPage_run in Hg as (d2 & -> & Hr2).
    unfold pagePath in Hr2. rewrite CommandPath_set_Commands in Hr2.
    fold (pagePath dir anc cmd) in Hr2. fold own_file in Hr2.
    exists d1, d2. split; [now rewrite app_assoc |].
    destruct res as [e|]; cbn [RunOf] in Hr1, Hr2.
    + right. left. split; [exact Hr1 |]. exists e. split; [reflexivity |].
      destruct Hr2 as (pre & fs & f & bad & rest & -> & Hp & Hb & Heq).
      destruct fs as [|f1 fs].
      * inversion Hp; subst. cbn in Heq. now injection Heq as ->.
      * destruct fs; discriminate.
    + left. split; [exact Hr1 |]. split; [reflexivity |].
      now apply Pages_single.
Qed.


(** C9. The first error wins. When the walk returns an error, the trace is
    made of the whole pages that came before, without any failure, and of
    the page on which an operation returned that very error; after the
    failing operation the file is only closed, and none of the pages that
    would have followed in the walk is created or written. When the walk
    returns no error, no operation failed. *)
Theorem first_error_stops_the_walk
  (anc : list Command) (cmd : Command) (t0 t : trace) (cmd' : Command)
  (res : option error) :
  GenTreeCustom anc cmd dir filePrepender linkHandler t0 = (t, cmd', res) ->
  exists d,
    t = (t0 ++ d)%list
    /\ match res with
       | None => Forall (fun e => failed e = false) d
       | Some err =>
           exists pre fs f bad rest,
             d = (pre ++ bad)%list
             /\ Pages pre fs
             /\ Forall (fun e => failed e = false) pre
             /\ Failing f err bad
             /\ map (pageOf dir) (walkOrder anc cmd) = (fs ++ f :: rest)%list
       end.
Proof.
  intros H. apply GenTreeCustom_run in H as (d & -> & Hr).
  exists d. split; [reflexivity |].
  destruct res as [e|]; cbn [RunOf] in Hr.
  - destruct Hr as (pre & fs & f & bad & rest & -> & Hp & Hb & Hw).
    exists pre, fs, f, bad, rest.
    repeat split; auto. now apply Pages_no_failure with fs.
  - now apply Pages_no_failure with (map (pageOf dir) (walkOrder anc cmd)).
Qed.

End WalkerProperties.

(** ** The concrete environment meets the contract of [sort.Sort] *)

Lemma insertSorted_perm (less : Command -> Command -> bool) (x : Command)
  (l : list Command) :
  Permutation (x :: l) (insertSorted less x l).
Proof.
  induction l as [|y l IH]; simpl; [reflexivity |].
  destruct (less y x); [| reflexivity].
  rewrite perm_swap. now constructor.
Qed.

Lemma insertionSort_perm (less : Command -> Command -> bool)
  (l : list Command) :
  Permutation l (insertionSort less l).
Proof.
  induction l as [|x l IH]; simpl; [constructor |].
  rewrite <- insertSorted_perm. now constructor.
Qed.

Lemma insertSorted_sorted (less : Command -> Command -> bool) :
  (forall a b c, less a b = false -> less b c = false -> less a c = false) ->
  (forall a b, less a b = true -> less b a = false) ->
  forall x l,
    StronglySorted (fun a b => less b a = false) l ->
    StronglySorted (fun a b => less b a = false) (insertSorted less x l).
Proof.
  intros Hnt Has x l H.
  induction H as [| y l Hl IH Hy]; simpl; [repeat constructor |].
  destruct (less y x) eqn:Hyx.
  - constructor; [exact IH |].
    rewrite Forall_forall in *. intros b Hb.
    apply (Permutation_in _ (Permutation_sym (insertSorted_perm less x l)))
      in Hb.
    destruct Hb as [<- | Hb]; [now apply Has | now apply Hy].
  - constructor; [now constructor |].
    constructor; [exact Hyx |].
    rewrite Forall_forall in *. intros b Hb.
    apply Hnt with y; [now apply Hy | exact Hyx].
Qed.

Lemma insertionSort_sorted (less : Command -> Command -> bool)
  (l : list Command) :
  (forall a b c, less a b = false -> less b c = false -> less a c = false) ->
  (forall a b, less a b = true -> less b a = false) ->
  StronglySorted (fun a b => less b a = false) (insertionSort less l).
Proof.
  intros Hnt Has. induction l as [|x l IH]; simpl; [constructor |].
  now apply insertSorted_sorted.
Qed.

Lemma envWith_sort_contract (broken : list string) :
  SortContract (envWith broken).
Proof.
  split; [exact insertionSort_perm | exact insertionSort_sorted].
Qed.

(** ** The properties on concrete trees *)

(** C1 as stated fails on this tree: "app" has the hidden group "mid", with
    the runnable command "leaf" below it, and the runnable command "sub".
    The leaf is eligible and in the subtree; the walk returns no error and
    creates the pages of "app sub" and "app" only. *)
Lemma eligible_leaf_below_hidden_group_gets_no_page :
  let r := @GenTree quietEnv [] hiddenTree "out" [] in
  snd r = None
  /\ In ([hiddenMid; hiddenTree], deepLeaf) (subtree [] hiddenTree)
  /\ eligible deepLeaf = true
  /\ @pagePath quietEnv "out" [hiddenMid; hiddenTree] deepLeaf
     = "out/app-mid-leaf.txt"
  /\ created (fst (fst r)) = ["out/app-sub.txt"; "out/app.txt"]
  /\ ~ In (@pagePath quietEnv "out" [hiddenMid; hiddenTree] deepLeaf)
          (created (fst (fst r))).
Proof.
  cbv zeta. repeat split; try (vm_compute; reflexivity).
  - vm_compute. now left.
  - vm_compute. intros [H | [H | []]]; discriminate H.
Qed.

Lemma walker_creates_pages_of_reached_commands_witness :
  let r := @GenTree quietEnv [] appTree "out" [] in
  exists d,
    fst (fst r) = ([] ++ d)%list
    /\ created d = map (@pageOf quietEnv "out") (walkOrder [] appTree)
    /\ (forall a c, In (a, c) (walkOrder [] appTree)
                    <-> Reached [] appTree a c)
    /\ (forall a c, Reached [] appTree a c ->
          (a, c) = ([], appTree) \/ eligible c = true).
Proof.
  intros r.
  apply (@walker_creates_pages_of_reached_commands quietEnv "out"
           (fun _ => "") defaultLinkHandler [] appTree [] (fst (fst r))
           (snd (fst r))).
  vm_compute. reflexivity.
Defined.

Lemma children_pages_before_own_page_witness :
  let r := @GenTree quietEnv [] appTree "out" [] in
  exists dc own,
    fst (fst r) = ([] ++ dc ++ own)%list
    /\ ((Pages dc ["out/app-sub.txt"] /\ snd r = None
         /\ exists prepended page,
              own = pageEvents "out/app.txt" prepended page)
        \/ (Pages dc ["out/app-sub.txt"]
            /\ exists err, snd r = Some err /\ Failing "out/app.txt" err own)
        \/ (own = []
            /\ exists err, snd r = Some err
                           /\ RunOf ["out/app-sub.txt"] dc (Some err))).
Proof.
  intros r.
  apply (@children_pages_before_own_page quietEnv "out"
           (fun _ => "") defaultLinkHandler [] appTree [] (fst (fst r))
           (snd (fst r)) (snd r)).
  vm_compute. reflexivity.
Defined.


(** The creation of the child's file fails: the walk returns that error and
    the page of the root is not created. *)
Lemma first_error_stops_the_walk_witness :
  let E := envWith ["out/app-sub.txt"] in
  let r := @GenTree E [] appTree "out" [] in
  snd r = Some "permission denied"
  /\ exists d,
       fst (fst r) = ([] ++ d)%list
       /\ exists pre fs f bad rest,
            d = (pre ++ bad)%list
            /\ Pages pre fs
            /\ Forall (fun e => failed e = false) pre
            /\ Failing f "permission denied" bad
            /\ map (@pageOf E "out") (walkOrder [] appTree)
               = (fs ++ f :: rest)%list.
Proof.
  intros E r. split; [vm_compute; reflexivity |].
  apply (@first_error_stops_the_walk E "out"
           (fun _ => "") defaultLinkHandler [] appTree [] (fst (fst r))
           (snd (fst r)) (Some "permission denied")).
  vm_compute. reflexivity.
Defined.



Lemma autogen_tag_propagates_and_decides_footer_witness :
  let r := @renderPage quietEnv [silentRoot] appSub defaultLinkHandler
             (mkDate 2 January 2006) in
  existsb DisableAutoGenTag [silentRoot] = true
  /\ DisableAutoGenTag (snd (fst r)) = true
  /\ String.length (appendInt 2006 4) = 4.
Proof.
  intros r.
  destruct (@autogen_tag_propagates_and_decides_footer quietEnv
              [silentRoot] appSub defaultLinkHandler (mkDate 2 January 2006))
    as (Htag & _ & _ & Hyear).
  split; [reflexivity |].
  split; [apply Htag; reflexivity |].
  apply Hyear. apply Nat.leb_le. vm_compute. reflexivity.
Defined.

(** C5 as stated fails here: two eligible children have the same name.
    Whatever the order in which they are listed, the names are not in
    strictly ascending order. Both lines are in "See Also". *)
Lemma see_also_children_with_equal_names :
  filter eligible (Commands twinTree) = [twinA; twinB]
  /\ Name twinA = Name twinB
  /\ fst (@seeAlsoBlock quietEnv [] twinTree "app" defaultLinkHandler) =
       "See Also" ++ nl ++ "~~~~~~~~" ++ nl ++ nl
       ++ childLine defaultLinkHandler "app" twinA
       ++ childLine defaultLinkHandler "app" twinB ++ nl
  /\ ~ (exists listed,
          Permutation listed (filter eligible (Commands twinTree))
          /\ strictlyAscendingNames listed).
Proof.
  split; [reflexivity |]. split; [reflexivity |].
  split; [vm_compute; reflexivity |].
  intros (listed & Hp & Hs).
  change (filter eligible (Commands twinTree)) with [twinA; twinB] in Hp.
  apply Permutation_sym in Hp.
  assert (Hnames : Forall (fun c => Name c = "twin") listed).
  { rewrite Forall_forall. intros c Hc.
    apply (Permutation_in _ (Permutation_sym Hp)) in Hc.
    destruct Hc as [<- | [<- | []]]; reflexivity. }
  apply Permutation_length in Hp.
  destruct listed as [|a [|b l]]; try discriminate Hp.
  unfold strictlyAscendingNames in Hs.
  inversion Hs as [| ? ? _ Hall]; subst.
  inversion Hall as [| ? ? Hab _]; subst.
  inversion Hnames as [| ? ? Ha Hrest]; subst.
  inversion Hrest as [| ? ? Hb _]; subst.
  rewrite Ha, Hb in Hab. vm_compute in Hab. discriminate Hab.
Qed.

Lemma see_also_parent_then_children_by_name_witness :
  exists listed,
    Permutation listed (filter eligible (Commands unsortedTree))
    /\ ascendingNames listed
    /\ strictlyAscendingNames listed.
Proof.
  destruct (@see_also_parent_then_children_by_name quietEnv
              (envWith_sort_contract []) [] unsortedTree defaultLinkHandler
              (mkDate 2 January 2006))
    as (listed & Hp & Ha & Hs & _).
  exists listed. split; [exact Hp |]. split; [exact Ha |].
  apply Hs.
  apply (Permutation_NoDup
           (Permutation_map Name (Permutation_sym Hp))).
  vm_compute.
  repeat constructor; cbn; intuition discriminate.
Defined.

Lemma inherited_options_rule_is_fixed_witness :
  HasAvailableFlags (InheritedFlags (@initialised quietEnv flaggedSub)) = true
  /\ exists own inherited examples rest,
       fst (fst (@renderPage quietEnv [appTree] flaggedSub
                   defaultLinkHandler (mkDate 2 January 2006))) =
         titleBlock "app sub" "Sub command" "Sub command"
         ++ usageBlock flaggedSub
         ++ own
         ++ ("Inherited Options" ++ nl ++ Repeat "~" 38 ++ nl ++ inherited)
         ++ examples ++ rest
       /\ String.length "Inherited Options" = 17
       /\ (exists table,
             own = "Options" ++ nl ++ Repeat "~" 7 ++ nl ++ table)
       /\ (exists code,
             examples = "Examples" ++ nl ++ Repeat "~" 8 ++ nl ++ code).
Proof.
  split; [reflexivity |].
  exact (@inherited_options_rule_is_fixed quietEnv [appTree] flaggedSub
           defaultLinkHandler (mkDate 2 January 2006) eq_refl).
Defined.

(** * Further properties of rest.go *)

(** ** The use line of the usage block *)

Lemma cutPrefix_append (p r : string) : cutPrefix p (p ++ r) = Some r.
Proof.
  induction p as [|c p IH]; simpl; [reflexivity |].
  now rewrite Ascii.eqb_refl.
Qed.

Lemma cutPrefix_Some (p s r : string) : cutPrefix p s = Some r -> s = p ++ r.
Proof.
  revert s. induction p as [|c p IH]; intros s; simpl.
  - now intros [= ->].
  - destruct s as [|d s]; [discriminate |].
    destruct (Ascii.eqb c d) eqn:Hcd; [| discriminate].
    apply Ascii.eqb_eq in Hcd as ->. intros H. now rewrite (IH _ H).
Qed.

Lemma HasPrefix_true (s p : string) :
  HasPrefix s p = true -> exists r, s = p ++ r.
Proof.
  unfold HasPrefix. destruct (cutPrefix p s) as [r|] eqn:H; [| discriminate].
  intros _. exists r. now apply cutPrefix_Some.
Qed.

Lemma HasPrefix_append (p r : string) : HasPrefix (p ++ r) p = true.
Proof. unfold HasPrefix. now rewrite cutPrefix_append. Qed.

(** The bytes of a match that are still to be passed over are dropped. *)
Lemma replaceFrom_skip (old new a r : string) :
  replaceFrom old new (String.length a) (a ++ r) = replaceFrom old new 0 r.
Proof. induction a as [|c a IH]; simpl; [reflexivity | exact IH]. Qed.

Lemma ReplaceAll_match (o : ascii) (old new r : string) :
  ReplaceAll (String o old ++ r) (String o old) new =
  new ++ ReplaceAll r (String o old) new.
Proof.
  unfold ReplaceAll. cbn [append replaceFrom].
  change (String o (old ++ r)) with (String o old ++ r).
  rewrite HasPrefix_append. cbn [String.length].
  replace (S (String.length old) - 1) with (String.length old) by lia.
  now rewrite replaceFrom_skip.
Qed.

Lemma ReplaceAll_no_match (c o : ascii) (s old new : string) :
  HasPrefix (String c s) (String o old) = false ->
  ReplaceAll (String c s) (String o old) new =
  String c (ReplaceAll s (String o old) new).
Proof. unfold ReplaceAll. cbn [replaceFrom]. now intros ->. Qed.

(** Where [old] does not occur, nothing is replaced. *)
Lemma ReplaceAll_absent (s : string) (o : ascii) (old new : string) :
  Contains s (String o old) = false -> ReplaceAll s (String o old) new = s.
Proof.
  induction s as [|c s IH]; [reflexivity |].
  cbn [Contains]. intros H. apply orb_false_iff in H as [H1 H2].
  rewrite ReplaceAll_no_match by exact H1. now rewrite IH.
Qed.

(** A beginning without '[' of the replaced text is a beginning of the
    text. *)
Lemma options_prefix_without_bracket (q : string) :
  allBytes (fun c => negb (Ascii.eqb c "["%char)) q = true ->
  forall s,
    HasPrefix (ReplaceAll s "[flags]" "[options]") q = true ->
    HasPrefix s q = true.
Proof.
  induction q as [|c0 q IH]; [reflexivity |].
  cbn [allBytes]. intros Hq. apply andb_true_iff in Hq as [Hc0 Hq].
  intros [|c s] H; [discriminate H |].
  destruct (HasPrefix (String c s) "[flags]") eqn:Hp.
  - apply HasPrefix_true in Hp as (r & Hr). rewrite Hr in H.
    rewrite ReplaceAll_match in H.
    unfold HasPrefix in H. cbn in H.
    destruct (Ascii.eqb c0 "[") eqn:Hb; [discriminate Hc0 | discriminate H].
  - rewrite ReplaceAll_no_match in H by exact Hp.
    unfold HasPrefix in *. cbn [cutPrefix] in *.
    destruct (Ascii.eqb c0 c); [| discriminate H].
    specialize (IH Hq s). unfold HasPrefix in IH.
    destruct (cutPrefix q (ReplaceAll s "[flags]" "[options]"));
      [| discriminate H].
    specialize (IH eq_refl). now destruct (cutPrefix q s).
Qed.

Lemma options_not_at_start (s : string) :
  HasPrefix (ReplaceAll s "[flags]" "[options]") "[flags]" = false.
Proof.
  destruct s as [|c s]; [reflexivity |].
  destruct (HasPrefix (String c s) "[flags]") eqn:Hp.
  - apply HasPrefix_true in Hp as (r & Hr). rewrite Hr.
    now rewrite ReplaceAll_match.
  - rewrite ReplaceAll_no_match by exact Hp.
    destruct (HasPrefix (String c (ReplaceAll s "[flags]" "[options]"))
                "[flags]") eqn:H; [| reflexivity].
    exfalso.
    unfold HasPrefix in H. cbn [cutPrefix] in H.
    destruct (Ascii.eqb "[" c) eqn:Hc; [| discriminate H].
    apply Ascii.eqb_eq in Hc as <-.
    assert (Hs : HasPrefix s "flags]" = true).
    { apply options_prefix_without_bracket; [reflexivity |].
      exact H. }
    apply HasPrefix_true in Hs as (r & Hr). rewrite Hr in Hp.
    pose proof (HasPrefix_append "[flags]" r) as Hx.
    change ("[flags]" ++ r) with (String "[" ("flags]" ++ r)) in Hx.
    congruence.
Qed.

Lemma Contains_skip (c : ascii) (s p : string) :
  HasPrefix (String c s) p = false ->
  Contains (String c s) p = Contains s p.
Proof. cbn [Contains]. now intros ->. Qed.

Lemma Contains_after_options (x : string) :
  Contains ("[options]" ++ x) "[flags]" = Contains x "[flags]".
Proof. cbn [append]. now rewrite !Contains_skip by reflexivity. Qed.

Lemma options_without_flags_bounded (n : nat) :
  forall s, String.length s <= n ->
    Contains (ReplaceAll s "[flags]" "[options]") "[flags]" = false.
Proof.
  induction n as [|n IH]; intros [|c s] Hlen; try reflexivity.
  - simpl in Hlen. lia.
  - destruct (HasPrefix (String c s) "[flags]") eqn:Hp.
    + apply HasPrefix_true in Hp as (r & Hr). rewrite Hr.
      rewrite ReplaceAll_match.
      assert (Hlr : String.length r <= n).
      { apply (f_equal String.length) in Hr.
        rewrite length_append in Hr. simpl in Hr, Hlen. lia. }
      rewrite Contains_after_options. now apply IH.
    + rewrite ReplaceAll_no_match by exact Hp.
      cbn [Contains].
      rewrite <- (ReplaceAll_no_match c "[" s "flags]" "[options]" Hp).
      rewrite options_not_at_start. cbn [orb].
      apply IH. simpl in Hlen. lia.
Qed.

Lemma options_where_flags_were (s : string) :
  Contains s "[flags]" = true ->
  Contains (ReplaceAll s "[flags]" "[options]") "[options]" = true.
Proof.
  induction s as [|c s IH]; [discriminate |].
  destruct (HasPrefix (String c s) "[flags]") eqn:Hp.
  - intros _. apply HasPrefix_true in Hp as (r & Hr). rewrite Hr.
    rewrite ReplaceAll_match.
    destruct ("[options]" ++ ReplaceAll r "[flags]" "[options]") eqn:Hd;
      [discriminate Hd |].
    cbn [Contains]. rewrite <- Hd. now rewrite HasPrefix_append.
  - rewrite ReplaceAll_no_match by exact Hp.
    cbn [Contains]. rewrite Hp. cbn [orb]. intros H.
    rewrite (IH H). apply orb_true_r.
Qed.

(** X1. The usage block of a runnable command is the code-block header and
    the use line in which "[flags]" is replaced by "[options]". The line
    that is written contains no "[flags]"; it contains "[options]" when the
    use line contained "[flags]", and it is the use line itself when the use
    line contained none. *)
Theorem usage_block_has_options_for_flags (cmd : Command) :
  Runnable cmd = true ->
  let u := ReplaceAll (UseLine cmd) "[flags]" "[options]" in
  usageBlock cmd = ".. code-block::" ++ nl ++ nl ++ "   " ++ u ++ nl ++ nl
  /\ Contains u "[flags]" = false
  /\ (Contains (UseLine cmd) "[flags]" = true ->
      Contains u "[options]" = true)
  /\ (Contains (UseLine cmd) "[flags]" = false -> u = UseLine cmd).
Proof.
  intros Hr u. unfold usageBlock. rewrite Hr.
  split; [reflexivity |]. split; [| split].
  - now apply (options_without_flags_bounded (String.length (UseLine cmd))).
  - apply options_where_flags_were.
  - apply ReplaceAll_absent.
Qed.

(** ** More on [indentString] *)

Lemma splitLines_prefix (p x : string) :
  allBytes (fun c => negb (Ascii.eqb c nl_char)) p = true ->
  splitLines (p ++ x) =
  match splitLines x with
  | l :: ls => (p ++ l) :: ls
  | [] => []
  end.
Proof.
  induction p as [|c p IH]; cbn [allBytes append]; intros Hp.
  - now destruct (splitLines x).
  - apply andb_true_iff in Hp as [Hc Hp].
    cbn [splitLines]. apply negb_true_iff in Hc. rewrite Hc, (IH Hp).
    destruct (splitLines x) as [|l ls] eqn:Hx; [| reflexivity].
    now destruct (splitLines_not_nil x).
Qed.

Lemma splitLines_indentLoop_prefix (p : string) :
  allBytes (fun c => negb (Ascii.eqb c nl_char)) p = true ->
  forall s,
    splitLines (indentLoop p s "" true) = map (indentLine p) (splitLines s)
    /\ splitLines (indentLoop p s "" false) =
       match splitLines s with
       | l :: ls => l :: map (indentLine p) ls
       | [] => []
       end.
Proof.
  intros Hp. induction s as [|c s [IHt IHf]]; [split; reflexivity |].
  rewrite !indentLoop_step.
  destruct (Ascii.eqb c nl_char) eqn:Hc; cbn [andb negb append].
  - cbn [splitLines]. rewrite Hc, IHt. split; reflexivity.
  - rewrite (splitLines_prefix p _ Hp).
    cbn [splitLines]. rewrite Hc, IHf.
    destruct (splitLines s) as [|l ls] eqn:Hs.
    + now destruct (splitLines_not_nil s).
    + split; reflexivity.
Qed.

(** X2. For a prefix without a newline, [indentString] keeps the lines of
    the text and puts the prefix before each line that is not empty; an
    empty line stays empty. *)
Theorem indentString_line_by_line (s p : string) :
  allBytes (fun c => negb (Ascii.eqb c nl_char)) p = true ->
  splitLines (indentString s p) = map (indentLine p) (splitLines s).
Proof.
  intros Hp. unfold indentString.
  now destruct (splitLines_indentLoop_prefix p Hp s) as [-> _].
Qed.

Lemma stripLine_indentLine_prefix (p l : string) :
  stripLine p (indentLine p l) = l.
Proof.
  destruct l as [|a l]; [reflexivity |].
  cbn [indentLine].
  assert (H : TrimPrefix (p ++ String a l) p = String a l)
    by (unfold TrimPrefix; now rewrite cutPrefix_append).
  destruct p; cbn [append stripLine] in *; exact H.
Qed.

(** X3. The round trip holds for every prefix without a newline: removing
    the prefix from the lines of [indentString s p] that are not empty
    gives [s] back. *)
Theorem indentString_strip_roundtrip_any_prefix (s p : string) :
  allBytes (fun c => negb (Ascii.eqb c nl_char)) p = true ->
  stripPrefixLines (indentString s p) p = s.
Proof.
  intros Hp. unfold stripPrefixLines, indentString.
  destruct (splitLines_indentLoop_prefix p Hp s) as [-> _].
  rewrite map_map.
  rewrite (map_ext _ (fun l => l) (stripLine_indentLine_prefix p)), map_id.
  apply joinLines_splitLines.
Qed.

Lemma indentLoop_newline_between (p a b : string) (bol : bool) :
  indentLoop p (a ++ nl ++ b) "" bol =
  indentLoop p a "" bol ++ nl ++ indentLoop p b "" true.
Proof.
  revert bol. induction a as [|c a IH]; intros bol.
  - cbn [append]. unfold nl at 1. cbn [append].
    rewrite indentLoop_step, Ascii.eqb_refl, andb_false_r. reflexivity.
  - cbn [append]. rewrite !indentLoop_step, IH.
    now rewrite !append_assoc.
Qed.

(** X4. [indentString] works line by line: indenting two texts joined by a
    newline is indenting each and joining the results by a newline, for
    every prefix. *)
Theorem indentString_distributes_over_newline (a b p : string) :
  indentString (a ++ nl ++ b) p =
  indentString a p ++ nl ++ indentString b p.
Proof. apply indentLoop_newline_between. Qed.

Lemma indentLoop_empty_prefix (s : string) (bol : bool) :
  indentLoop "" s "" bol = s.
Proof.
  revert bol. induction s as [|c s IH]; intros bol; [reflexivity |].
  rewrite indentLoop_step, IH.
  now destruct (bol && negb (Ascii.eqb c nl_char)).
Qed.

(** X5. The length of the indented text: one prefix more for each line of
    the text that is not empty. With the empty prefix the text is
    unchanged. *)
Theorem indentString_length (s p : string) :
  String.length (indentString s p) =
  String.length s
  + String.length p
    * List.length (filter (fun l => negb (String.eqb l "")) (splitLines s))
  /\ indentString s "" = s.
Proof.
  split; [| apply indentLoop_empty_prefix].
  unfold indentString.
  assert (H : forall s,
    String.length (indentLoop p s "" true) =
      String.length s + String.length p
      * List.length (filter (fun l => negb (String.eqb l "")) (splitLines s))
    /\ String.length (indentLoop p s "" false) =
      String.length s + String.length p
      * List.length (filter (fun l => negb (String.eqb l ""))
                       (tl (splitLines s)))).
  { clear s. induction s as [|c s [IHt IHf]]; [split; cbn; lia |].
    rewrite !indentLoop_step.
    destruct (Ascii.eqb c nl_char) eqn:Hc; cbn [andb negb].
    - rewrite !length_append. cbn [String.length splitLines].
      rewrite Hc, IHt. cbn [filter String.eqb negb tl]. split; lia.
    - rewrite !length_append. cbn [String.length splitLines].
      rewrite Hc, IHf.
      destruct (splitLines s) as [|l ls] eqn:Hs.
      + now destruct (splitLines_not_nil s).
      + cbn [filter String.eqb negb tl List.length]. split; lia. }
  apply H.
Qed.

(** ** More on the page *)

(** X6. [printOptionsReST] never returns an error and only appends to the
    buffer; what it appends is the same for every buffer, and it is empty
    exactly when neither flag set has a displayable flag. *)
Theorem printOptionsReST_only_appends (cmd : Command) :
  exists add,
    (forall buf, printOptionsReST buf cmd = (buf ++ add, None))
    /\ (add = "" <->
        HasAvailableFlags (NonInheritedFlags cmd) = false
        /\ HasAvailableFlags (InheritedFlags cmd) = false).
Proof.
  exists (fst (printOptionsReST "" cmd)).
  split; [intros buf; apply printOptionsReST_appends |].
  unfold printOptionsReST.
  destruct (HasAvailableFlags (NonInheritedFlags cmd));
    destruct (HasAvailableFlags (InheritedFlags cmd)); cbn [fst append];
    (split; [intros H; try discriminate H; now split
            | intros [H1 H2]; try discriminate H1; try discriminate H2;
              reflexivity]).
Qed.

Lemma mapBytes_space_differs (a r e e' : string) :
  mapBytes underscore (a ++ String " " r) ++ e <>
  mapBytes hyphenate (a ++ String " " r) ++ e'.
Proof.
  induction a as [|c a IH]; cbn [append mapBytes].
  - unfold underscore at 1, hyphenate at 1. cbn. discriminate.
  - intros H. injection H as _ H. now apply IH in H.
Qed.

(** X7. With the default link handler, the line of a child in "See Also"
    names the child's command path and links to that path with underscores
    for spaces, followed by ".txt". This target is never the base name of
    the child's page file, which has hyphens for spaces. *)
Theorem default_link_target_has_underscores
  (anc : list Command) (parent child : Command) :
  skipped child = false ->
  let path := CommandPath (parent :: anc) child in
  seeAlso_range defaultLinkHandler (CommandPath anc parent) [child] "" =
    "* `" ++ path ++ " <" ++ mapBytes underscore path ++ ".txt>`_ "
    ++ tab ++ " - " ++ Short child ++ nl
  /\ mapBytes underscore path ++ ".txt"
     <> ReplaceAll path " " "-" ++ ".txt".
Proof.
  intros Hs path. split.
  - cbn [seeAlso_range]. rewrite Hs. unfold defaultLinkHandler.
    change (CommandPath anc parent ++ " " ++ Name child) with path.
    rewrite (ReplaceAll_byte " " "_" path).
    change (mapBytes (fun c => if Ascii.eqb c " " then "_"%char else c) path)
      with (mapBytes underscore path).
    do 3 (rewrite ?append_assoc; cbn [append]). reflexivity.
  - rewrite ReplaceAll_hyphen. subst path. cbn [CommandPath].
    apply mapBytes_space_differs.
Qed.

Section MorePageProperties.

Context {E : Env}.

(** X8. The description under the title: the short description, an empty
    line, and the long description, in whose place the short description is
    written once more when the long description is empty. *)
Theorem empty_long_falls_back_to_short (anc : list Command) (cmd : Command)
  (linkHandler : string -> string -> string) (now : Date) :
  let c0 := initialised cmd in
  let name := CommandPath anc c0 in
  let page := fst (fst (renderPage anc cmd linkHandler now)) in
  let head := ".. _" ++ ReplaceAll name " " "_" ++ ":" ++ nl ++ nl
              ++ Repeat "=" (String.length name) ++ nl ++ name ++ nl
              ++ Repeat "=" (String.length name) ++ nl ++ nl in
  (Long c0 = "" ->
   exists rest,
     page = head ++ Short c0 ++ nl ++ nl ++ Short c0 ++ nl ++ nl ++ rest)
  /\ (Long c0 <> "" ->
      exists rest,
        page = head ++ Short c0 ++ nl ++ nl ++ Long c0 ++ nl ++ nl ++ rest).
Proof.
  intros c0 name page head. subst page head.
  pose proof (renderPage_layout anc cmd linkHandler now) as L.
  cbv zeta in L. rewrite L. cbn [fst]. fold c0 name.
  set (see := seeAlsoBlock anc c0 name linkHandler).
  set (rest := usageBlock c0 ++ fst (printOptionsReST "" c0)
               ++ examplesBlock c0 ++ fst see ++ footerBlock (snd see) now).
  split; intros HL; exists rest.
  - rewrite HL. cbn [String.eqb]. unfold titleBlock.
    rewrite ?append_assoc. reflexivity.
  - apply String.eqb_neq in HL. rewrite HL. unfold titleBlock.
    rewrite ?append_assoc. reflexivity.
Qed.

(** X9. [GenCustom] writes to [w] once, the whole page, and what it returns
    is the trace and the error of that write: rendering itself does not
    fail, so with a writer that returns no error [GenCustom] returns no
    error. *)
Theorem GenCustom_fails_only_with_the_writer
  (anc : list Command) (cmd : Command) (w : Writer)
  (linkHandler : string -> string -> string) (t : trace) :
  let page := fst (fst (renderPage anc cmd linkHandler (time_Now t))) in
  let r := GenCustom anc cmd w linkHandler t in
  w page t = (fst (fst r), snd r)
  /\ ((forall data s, snd (w data s) = None) -> snd r = None).
Proof.
  intros page r. subst r.
  pose proof (GenCustom_renderPage anc cmd w linkHandler t) as G.
  cbv zeta in G. rewrite G. fold page. cbn [fst snd].
  split; [now destruct (w page t) | intros H; apply H].
Qed.

(** X10. A command without parent and without eligible child has no "See
    Also" section, and rendering its page writes nothing to it: the command
    is left as the two [InitDefault...] calls leave it, its children in
    the order they had. *)
Theorem no_see_also_leaves_the_command (cmd : Command) (w : Writer)
  (linkHandler : string -> string -> string) (t : trace) :
  let c0 := initialised cmd in
  let long := if String.eqb (Long c0) "" then Short c0 else Long c0 in
  (forall c, In c (Commands c0) -> eligible c = false) ->
  snd (fst (GenCustom [] cmd w linkHandler t)) = c0
  /\ fst (fst (renderPage [] cmd linkHandler (time_Now t))) =
       titleBlock (Name c0) (Short c0) long ++ usageBlock c0
       ++ fst (printOptionsReST "" c0) ++ examplesBlock c0
       ++ footerBlock c0 (time_Now t).
Proof.
  intros c0 long Hno.
  pose proof (GenCustom_renderPage [] cmd w linkHandler t) as G.
  cbv zeta in G. rewrite G. cbn [fst snd].
  pose proof (renderPage_layout [] cmd linkHandler (time_Now t)) as L.
  cbv zeta in L. rewrite L. cbn [fst snd CommandPath]. fold c0 long.
  assert (Hs : seeAlsoBlock [] c0 (Name c0) linkHandler = ("", c0)).
  { unfold seeAlsoBlock, hasSeeAlso. cbn [HasParent].
    rewrite hasSeeAlso_range_eligible.
    destruct (existsb eligible (Commands c0)) eqn:Hx; [| reflexivity].
    apply existsb_exists in Hx as (c & Hc & He).
    rewrite (Hno c Hc) in He. discriminate He. }
  rewrite Hs. cbn [fst snd append]. split; reflexivity.
Qed.

(** X11. Every page ends with a newline. *)
Theorem page_ends_with_newline (anc : list Command) (cmd : Command)
  (linkHandler : string -> string -> string) (now : Date) :
  exists body, fst (fst (renderPage anc cmd linkHandler now)) = body ++ nl.
Proof.
  pose proof (renderPage_layout anc cmd linkHandler now) as L.
  cbv zeta in L. rewrite L. cbn [fst]. clear L.
  set (c0 := initialised cmd). set (name := CommandPath anc c0).
  set (long := if String.eqb (Long c0) "" then Short c0 else Long c0).
  set (see := seeAlsoBlock anc c0 name linkHandler).
  assert (Hstep : forall a b,
            (exists x, a = x ++ nl) ->
            (b = "" \/ exists y, b = y ++ nl) ->
            exists z, a ++ b = z ++ nl).
  { intros a b [x ->] [-> | [y ->]].
    - exists x. now rewrite append_nil_r.
    - exists ((x ++ nl) ++ y). now rewrite !append_assoc. }
  assert (Htitle : exists x, titleBlock name (Short c0) long = x ++ nl).
  { unfold titleBlock. eexists.
    rewrite <- !append_assoc. reflexivity. }
  assert (Husage : usageBlock c0 = "" \/ exists y, usageBlock c0 = y ++ nl).
  { unfold usageBlock. destruct (Runnable c0); [right | now left].
    eexists. rewrite <- !append_assoc. reflexivity. }
  assert (Hopt : fst (printOptionsReST "" c0) = ""
                 \/ exists y, fst (printOptionsReST "" c0) = y ++ nl).
  { unfold printOptionsReST.
    destruct (HasAvailableFlags (NonInheritedFlags c0));
      destruct (HasAvailableFlags (InheritedFlags c0)); cbn [fst];
      [right | right | right | now left]; eexists; reflexivity. }
  assert (Hex : examplesBlock c0 = ""
                \/ exists y, examplesBlock c0 = y ++ nl).
  { unfold examplesBlock.
    destruct (Nat.ltb 0 (String.length (Example c0))); [right | now left].
    eexists. rewrite <- !append_assoc. reflexivity. }
  assert (Hsee : fst see = "" \/ exists y, fst see = y ++ nl).
  { subst see. rewrite seeAlsoBlock_text.
    destruct (HasParent anc || existsb eligible (Commands c0));
      [right | now left].
    eexists. rewrite <- !append_assoc. reflexivity. }
  assert (Hfoot : footerBlock (snd see) now = ""
                  \/ exists y, footerBlock (snd see) now = y ++ nl).
  { unfold footerBlock.
    destruct (negb (DisableAutoGenTag (snd see))); [right | now left].
    eexists. rewrite <- !append_assoc. reflexivity. }
  rewrite <- !append_assoc.
  repeat (apply Hstep; [| assumption]). exact Htitle.
Qed.

End MorePageProperties.

(** ** More on "See Also" *)

Lemma strictly_ascending_unique (l1 : list Command) :
  forall l2,
    strictlyAscendingNames l1 -> strictlyAscendingNames l2 ->
    Permutation l1 l2 -> l1 = l2.
Proof.
  unfold strictlyAscendingNames.
  induction l1 as [|x l1 IH]; intros l2 H1 H2 Hp.
  - now apply Permutation_nil in Hp.
  - destruct l2 as [|y l2];
      [now apply Permutation_sym, Permutation_nil in Hp |].
    inversion H1 as [| ? ? Hs1 Hx]; subst.
    inversion H2 as [| ? ? Hs2 Hy]; subst.
    rewrite Forall_forall in Hx, Hy.
    assert (Hxy : x = y).
    { assert (Hin1 : In x (y :: l2))
        by (apply (Permutation_in _ Hp); now left).
      assert (Hin2 : In y (x :: l1))
        by (apply (Permutation_in _ (Permutation_sym Hp)); now left).
      destruct Hin1 as [-> | Hin1]; [reflexivity |].
      destruct Hin2 as [<- | Hin2]; [reflexivity |].
      specialize (Hx y Hin2). specialize (Hy x Hin1).
      unfold String.ltb in Hx, Hy.
      rewrite (String.compare_antisym (Name x) (Name y)) in Hx.
      destruct (String.compare (Name y) (Name x)); discriminate. }
    subst y. f_equal.
    apply IH; auto. now apply Permutation_cons_inv with x.
Qed.

Lemma existsb_Permutation {A : Type} (f : A -> bool) (l l' : list A) :
  Permutation l l' -> existsb f l = existsb f l'.
Proof.
  intros Hp.
  destruct (existsb f l) eqn:H1, (existsb f l') eqn:H2; try reflexivity.
  - apply existsb_exists in H1 as (x & Hx & Hf).
    rewrite <- H2. symmetry. apply existsb_exists. exists x.
    split; [now apply (Permutation_in _ Hp) | exact Hf].
  - apply existsb_exists in H2 as (x & Hx & Hf).
    rewrite <- H1. apply existsb_exists. exists x.
    split; [now apply (Permutation_in _ (Permutation_sym Hp)) | exact Hf].
Qed.

Section MoreWalkerProperties.

Context {E : Env}.

Lemma listed_ascending {SC : SortContract E} (cs : list Command) :
  ascendingNames (filter eligible (sort_Sort byName_Less cs)).
Proof.
  unfold ascendingNames. apply StronglySorted_filter_same.
  eapply StronglySorted_weaken;
    [| apply (sort_Sort_sorted byName_Less cs
                byName_Less_negtrans byName_Less_asym)].
  intros a b _ _ H. cbv beta in H. unfold byName_Less in H.
  now rewrite leb_ltb, H.
Qed.

(** X12. When the eligible children of a command have pairwise different
    names, the text of "See Also" does not depend on the order in which the
    children are stored: the same command with its children in another
    order gives the same section. *)
Theorem see_also_ignores_the_stored_order {SC : SortContract E}
  (anc : list Command) (c0 : Command) (cs : list Command) (name : string)
  (linkHandler : string -> string -> string) :
  Permutation (Commands c0) cs ->
  NoDup (map Name (filter eligible (Commands c0))) ->
  fst (seeAlsoBlock anc (set_Commands c0 cs) name linkHandler) =
  fst (seeAlsoBlock anc c0 name linkHandler).
Proof.
  intros Hp Hnd. rewrite !seeAlsoBlock_text.
  cbn [Commands set_Commands].
  rewrite <- (existsb_Permutation eligible _ _ Hp).
  assert (Hl1 : Permutation
                  (filter eligible (sort_Sort byName_Less (Commands c0)))
                  (filter eligible (Commands c0))).
  { apply Permutation_filter_same. symmetry. apply sort_Sort_perm. }
  assert (Hl2 : Permutation
                  (filter eligible (sort_Sort byName_Less cs))
                  (filter eligible (Commands c0))).
  { apply Permutation_filter_same. symmetry.
    transitivity cs; [exact Hp | apply sort_Sort_perm]. }
  assert (Heq : filter eligible (sort_Sort byName_Less cs) =
                filter eligible (sort_Sort byName_Less (Commands c0))).
  { apply strictly_ascending_unique.
    - apply ascending_NoDup_strict; [apply listed_ascending |].
      apply (Permutation_NoDup
               (Permutation_map Name (Permutation_sym Hl2)) Hnd).
    - apply ascending_NoDup_strict; [apply listed_ascending |].
      apply (Permutation_NoDup
               (Permutation_map Name (Permutation_sym Hl1)) Hnd).
    - now transitivity (filter eligible (Commands c0)). }
  now rewrite Heq.
Qed.

Variable dir : string.
Variable filePrepender : string -> string.
Variable linkHandler : string -> string -> string.

Lemma runFiles_app (d1 d2 : trace) :
  forall st,
    runFiles st (d1 ++ d2)%list =
    match runFiles st d1 with
    | Some st' => runFiles st' d2
    | None => None
    end.
Proof.
  induction d1 as [|e d1 IH]; intros st; [reflexivity |].
  cbn [app runFiles].
  destruct e as [f [err|] | f data err | f]; destruct st as [g|];
    try reflexivity; try apply IH;
    destruct (String.eqb f g); try reflexivity; apply IH.
Qed.

Lemma Pages_runFiles (d : trace) (fs : list string) :
  Pages d fs -> runFiles None d = Some None.
Proof.
  induction 1 as [| f p g d fs _ IH]; [reflexivity |].
  unfold pageEvents. cbn [app runFiles].
  now rewrite String.eqb_refl.
Qed.

Lemma Failing_runFiles (f : string) (err : error) (d : trace) :
  Failing f err d -> runFiles None d = Some None.
Proof.
  destruct 1; cbn [runFiles]; rewrite ?String.eqb_refl; reflexivity.
Qed.

(** X13. On every path out of the walk, with or without error, the file
    handles are used in order: at most one file is open at a time, every
    write goes to the file that is open, every file that was created is
    closed, and no file is open at the end. *)
Theorem walk_keeps_the_file_discipline
  (anc : list Command) (cmd : Command) (t0 t : trace) (cmd' : Command)
  (res : option error) :
  GenTreeCustom anc cmd dir filePrepender linkHandler t0 = (t, cmd', res) ->
  exists d, t = (t0 ++ d)%list /\ runFiles None d = Some None.
Proof.
  intros H. apply GenTreeCustom_run in H as (d & -> & Hr).
  exists d. split; [reflexivity |].
  destruct res as [e|]; cbn [RunOf] in Hr.
  - destruct Hr as (pre & fs & f & bad & rest & -> & Hp & Hb & _).
    rewrite runFiles_app, (Pages_runFiles _ _ Hp).
    now apply Failing_runFiles with f e.
  - now apply Pages_runFiles with (map (pageOf dir) (walkOrder anc cmd)).
Qed.

(** The page of one command, when nothing fails. *)
Lemma genPage_ok (anc : list Command) (cmd : Command) (t0 t : trace)
  (cmd' : Command) :
  genPage anc cmd dir filePrepender linkHandler t0 = (t, cmd', None) ->
  let f := pagePath dir anc cmd in
  let r := renderPage anc cmd linkHandler
             (time_Now (t0 ++ [EvCreate f None;
                               EvWrite f (filePrepender f) None])%list) in
  t = (t0 ++ pageEvents f (filePrepender f) (fst (fst r)))%list
  /\ cmd' = snd (fst r).
Proof.
  unfold genPage. rewrite ReplaceAll_hyphen. fold (pagePath dir anc cmd).
  set (f := pagePath dir anc cmd).
  destruct (os_Create t0 f) as [e|] eqn:Hc; [discriminate |].
  unfold fileWriter at 1. cbv beta zeta.
  destruct (file_Write (t0 ++ [EvCreate f None])%list f (filePrepender f))
    as [e|] eqn:Hw; [discriminate |].
  rewrite GenCustom_renderPage. cbv zeta. cbn [fst snd].
  rewrite <- app_assoc. cbn [app].
  set (t2 := (t0 ++ [EvCreate f None; EvWrite f (filePrepender f) None])%list).
  unfold fileWriter. cbn [fst snd].
  destruct (file_Write t2 f _) as [e|] eqn:Hp; [discriminate |].
  intros [= <- <-]. split; [| reflexivity].
  subst t2. unfold pageEvents. now rewrite <- !app_assoc.
Qed.

Lemma fileContent_app (f : string) (d1 d2 : trace) :
  forall cur,
    fileContent f (d1 ++ d2)%list cur =
    fileContent f d2 (fileContent f d1 cur).
Proof.
  induction d1 as [|e d1 IH]; intros cur; [reflexivity |].
  cbn [app fileContent].
  destruct e as [g [err|] | g data [err|] | g]; apply IH.
Qed.

(** X14. After a walk without error, the page file of the command the walk
    was started on holds the text of the file prepender for that path,
    followed by the page rendered for the command with its children as
    the walk over them left them; whatever the file held before is gone.
    The command that the walk returns is the one this rendering leaves. *)
Theorem root_page_file_holds_prepended_text_and_page
  (anc : list Command) (cmd : Command) (t0 t : trace) (cmd' : Command)
  (cur : option string) :
  GenTreeCustom anc cmd dir filePrepender linkHandler t0 = (t, cmd', None) ->
  let f := pagePath dir anc cmd in
  exists t1 children,
    GenTreeCustom_range
      (fun c => GenTreeCustom (cmd :: anc) c dir filePrepender linkHandler)
      (Commands cmd) t0 = (t1, children, None)
    /\ let now :=
         time_Now (t1 ++ [EvCreate f None;
                          EvWrite f (filePrepender f) None])%list in
       fileContent f t cur =
         Some (filePrepender f
               ++ fst (fst (renderPage anc (set_Commands cmd children)
                              linkHandler now)))
       /\ cmd' = snd (fst (renderPage anc (set_Commands cmd children)
                             linkHandler now)).
Proof.
  rewrite GenTreeCustom_eq.
  destruct (GenTreeCustom_range _ (Commands cmd) t0) as [[t1 cs1] e1] eqn:Hr.
  destruct e1 as [e1|]; [discriminate |].
  intros Hg f. apply genPage_ok in Hg as [-> ->].
  unfold pagePath. rewrite CommandPath_set_Commands.
  fold (pagePath dir anc cmd). fold f.
  exists t1, cs1. split; [reflexivity |]. cbv zeta.
  split; [| reflexivity].
  rewrite fileContent_app. unfold pageEvents. cbn [fileContent].
  now rewrite String.eqb_refl.
Qed.

Lemma walkOrder_path_extends (cmd : Command) :
  forall anc a c,
    In (a, c) (walkOrder anc cmd) ->
    exists suffix, CommandPath a c = CommandPath anc cmd ++ suffix.
Proof.
  induction cmd as [cmd IH] using Command_tree_ind. intros anc a c Hin.
  apply walkOrder_In in Hin as [[= -> ->] | (ch & Hch & He & Hin)].
  - exists "". now rewrite append_nil_r.
  - rewrite Forall_forall in IH.
    destruct (IH ch Hch (cmd :: anc) a c Hin) as (suffix & ->).
    exists (" " ++ Name ch ++ suffix). cbn [CommandPath].
    now rewrite !append_assoc.
Qed.

(** X18. Every file a walk creates, writes or closes is the page file of a
    command path that begins with the command path of the command the walk
    was started on: a walk from a command stays below that command. *)
Theorem walk_stays_below_its_root
  (anc : list Command) (cmd : Command) (t0 t : trace) (cmd' : Command)
  (res : option error) :
  GenTreeCustom anc cmd dir filePrepender linkHandler t0 = (t, cmd', res) ->
  exists d,
    t = (t0 ++ d)%list
    /\ Forall
         (fun e => exists suffix,
            eventFile e =
            filepath_Join dir
              (ReplaceAll (CommandPath anc cmd ++ suffix) " " "-" ++ ".txt"))
         d.
Proof.
  intros H. apply GenTreeCustom_run in H as (d & -> & Hr).
  exists d. split; [reflexivity |].
  assert (Hin : Forall
                  (fun e => In (eventFile e)
                              (map (pageOf dir) (walkOrder anc cmd))) d).
  { destruct res as [e|]; cbn [RunOf] in Hr.
    - destruct Hr as (pre & fs & f & bad & rest & -> & Hp & Hb & ->).
      apply Forall_app. split.
      + eapply Forall_impl; [| exact (Pages_files _ _ Hp)].
        intros ev Hev. apply in_or_app. now left.
      + eapply Forall_impl; [| exact (Failing_files _ _ _ Hb)].
        intros ev ->. apply in_or_app. right. now left.
    - now apply Pages_files. }
  eapply Forall_impl; [| exact Hin].
  intros e He. apply in_map_iff in He as ([a c] & Hf & Hac).
  apply walkOrder_path_extends in Hac as (suffix & Hs).
  exists suffix. rewrite <- Hf. unfold pageOf, pagePath. cbn [fst snd].
  now rewrite ReplaceAll_hyphen, Hs.
Qed.

End MoreWalkerProperties.

Section GenTreeProperties.

Context {E : Env}.

(** X17. [GenTree] prepends nothing: after a [GenTree] without error, the
    page file of the command it was started on holds exactly the page of
    that command, rendered with the default link handler. *)
Theorem GenTree_root_file_is_the_page
  (anc : list Command) (cmd : Command) (dir : string) (t0 t : trace)
  (cmd' : Command) (cur : option string) :
  GenTree anc cmd dir t0 = (t, cmd', None) ->
  let f := pagePath dir anc cmd in
  exists t1 children,
    GenTreeCustom_range
      (fun c => GenTreeCustom (cmd :: anc) c dir (fun _ => "")
                  defaultLinkHandler)
      (Commands cmd) t0 = (t1, children, None)
    /\ fileContent f t cur =
       Some (fst (fst (renderPage anc (set_Commands cmd children)
                         defaultLinkHandler
                         (time_Now (t1 ++ [EvCreate f None;
                                           EvWrite f "" None])%list)))).
Proof.
  unfold GenTree. rewrite GenTreeCustom_eq.
  destruct (GenTreeCustom_range _ (Commands cmd) t0) as [[t1 cs1] e1] eqn:Hr.
  destruct e1 as [e1|]; [discriminate |].
  intros Hg. apply genPage_ok in Hg as [-> _].
  unfold pagePath. rewrite CommandPath_set_Commands.
  fold (pagePath dir anc cmd).
  exists t1, cs1. split; [reflexivity |].
  rewrite fileContent_app. unfold pageEvents. cbn [fileContent].
  now rewrite String.eqb_refl.
Qed.

End GenTreeProperties.

(** X15. [hasSeeAlso] answers true exactly when the command has a parent or
    one of its children is available and is not a help topic. *)
Theorem hasSeeAlso_parent_or_eligible_child
  (anc : list Command) (cmd : Command) :
  hasSeeAlso anc cmd = true <->
  anc <> []
  \/ exists c, In c (Commands cmd)
               /\ IsAvailableCommand c = true
               /\ IsAdditionalHelpTopicCommand c = false.
Proof.
  unfold hasSeeAlso. rewrite hasSeeAlso_range_eligible.
  destruct anc as [|p g]; cbn [HasParent].
  - rewrite existsb_exists. split.
    + intros (c & Hc & He). right. exists c. split; [exact Hc |].
      unfold eligible in He. apply andb_true_iff in He as [Ha Hh].
      now apply negb_true_iff in Hh.
    + intros [H | (c & Hc & Ha & Hh)]; [now destruct H |].
      exists c. split; [exact Hc |]. unfold eligible. now rewrite Ha, Hh.
  - split; [intros _; left; discriminate | reflexivity].
Qed.

Section SortedChildren.

Context {E : Env} {SC : SortContract E}.

(** X16. Rendering a command that has a parent or an eligible child leaves
    the command with all its children, eligible or not, stored in ascending
    order of their names. *)
Theorem rendering_leaves_children_sorted
  (anc : list Command) (cmd : Command) (w : Writer)
  (linkHandler : string -> string -> string) (t : trace) :
  hasSeeAlso anc (initialised cmd) = true ->
  ascendingNames (Commands (snd (fst (GenCustom anc cmd w linkHandler t)))).
Proof.
  intros Hs.
  pose proof (GenCustom_renderPage anc cmd w linkHandler t) as G.
  cbv zeta in G. rewrite G. cbn [fst snd].
  pose proof (renderPage_layout anc cmd linkHandler (time_Now t)) as L.
  cbv zeta in L. rewrite L. cbn [fst snd].
  rewrite seeAlsoBlock_command, Hs. cbn [Commands set_Commands].
  unfold ascendingNames.
  eapply StronglySorted_weaken;
    [| apply (sort_Sort_sorted byName_Less _
                byName_Less_negtrans byName_Less_asym)].
  intros a b _ _ H. cbv beta in H. unfold byName_Less in H.
  now rewrite leb_ltb, H.
Qed.

End SortedChildren.

(** ** The further properties on concrete inputs *)

Lemma usage_block_has_options_for_flags_witness :
  usageBlock flaggedSub =
    ".. code-block::" ++ nl ++ nl ++ "   " ++ "app sub [options]" ++ nl ++ nl
  /\ Contains "app sub [options]" "[flags]" = false.
Proof.
  destruct (usage_block_has_options_for_flags flaggedSub eq_refl)
    as (H1 & H2 & _).
  split; [exact H1 | exact H2].
Defined.

Lemma indentString_line_by_line_witness :
  splitLines (indentString ("a" ++ nl ++ nl ++ "b") "  ") =
  ["  a"; ""; "  b"].
Proof.
  exact (indentString_line_by_line ("a" ++ nl ++ nl ++ "b") "  " eq_refl).
Defined.

Lemma indentString_strip_roundtrip_any_prefix_witness :
  stripPrefixLines (indentString ("a" ++ nl ++ nl ++ " b" ++ nl) "   ") "   "
  = "a" ++ nl ++ nl ++ " b" ++ nl.
Proof.
  exact (indentString_strip_roundtrip_any_prefix
           ("a" ++ nl ++ nl ++ " b" ++ nl) "   " eq_refl).
Defined.

Lemma default_link_target_has_underscores_witness :
  seeAlso_range defaultLinkHandler "app" [appSub] "" =
    "* `app sub <app_sub.txt>`_ " ++ tab ++ " - Sub command" ++ nl
  /\ "app_sub.txt" <> ReplaceAll "app sub" " " "-" ++ ".txt".
Proof.
  exact (default_link_target_has_underscores [] appTree appSub eq_refl).
Defined.

Lemma empty_long_falls_back_to_short_witness :
  exists rest,
    fst (fst (@renderPage quietEnv [appTree] appSub defaultLinkHandler
                (mkDate 2 January 2006))) =
    (".. _app_sub:" ++ nl ++ nl ++ "=======" ++ nl ++ "app sub" ++ nl
     ++ "=======" ++ nl ++ nl)
    ++ "Sub command" ++ nl ++ nl ++ "Sub command" ++ nl ++ nl ++ rest.
Proof.
  destruct (@empty_long_falls_back_to_short quietEnv [appTree] appSub
              defaultLinkHandler (mkDate 2 January 2006)) as [H _].
  exact (H eq_refl).
Defined.

Lemma GenCustom_fails_only_with_the_writer_witness :
  snd (@GenCustom quietEnv [appTree] appSub
         (@fileWriter quietEnv "out/app-sub.txt") defaultLinkHandler [])
  = None.
Proof.
  destruct (@GenCustom_fails_only_with_the_writer quietEnv [appTree] appSub
              (@fileWriter quietEnv "out/app-sub.txt") defaultLinkHandler [])
    as [_ H].
  apply H. intros data s. reflexivity.
Defined.

Lemma no_see_also_leaves_the_command_witness :
  snd (fst (@GenCustom quietEnv [] appSub
              (@fileWriter quietEnv "out/sub.txt") defaultLinkHandler []))
  = appSub.
Proof.
  destruct (@no_see_also_leaves_the_command quietEnv appSub
              (@fileWriter quietEnv "out/sub.txt") defaultLinkHandler [])
    as [H _].
  - intros c [].
  - exact H.
Defined.

Lemma see_also_ignores_the_stored_order_witness :
  fst (@seeAlsoBlock quietEnv []
         (set_Commands unsortedTree (rev (Commands unsortedTree)))
         "app" defaultLinkHandler) =
  fst (@seeAlsoBlock quietEnv [] unsortedTree "app" defaultLinkHandler).
Proof.
  apply (@see_also_ignores_the_stored_order quietEnv
           (envWith_sort_contract [])).
  - apply Permutation_rev.
  - vm_compute. repeat constructor; cbn; intuition discriminate.
Defined.

Lemma walk_keeps_the_file_discipline_witness :
  let E := envWith ["out/app.txt"] in
  let r := @GenTree E [] appTree "out" [] in
  snd r = Some "permission denied"
  /\ exists d, fst (fst r) = ([] ++ d)%list /\ runFiles None d = Some None.
Proof.
  intros E r. split; [vm_compute; reflexivity |].
  apply (@walk_keeps_the_file_discipline E "out" (fun _ => "")
           defaultLinkHandler [] appTree [] (fst (fst r)) (snd (fst r))
           (snd r)).
  vm_compute. reflexivity.
Defined.

Lemma root_page_file_holds_prepended_text_and_page_witness :
  let r := @GenTreeCustom quietEnv [] appTree "out"
             (fun f => "# " ++ f ++ nl) defaultLinkHandler [] in
  exists t1 children,
    GenTreeCustom_range
      (fun c => @GenTreeCustom quietEnv [appTree] c "out"
                  (fun f => "# " ++ f ++ nl) defaultLinkHandler)
      (Commands appTree) [] = (t1, children, None)
    /\ fileContent "out/app.txt" (fst (fst r)) (Some "old text") =
       Some (("# " ++ "out/app.txt" ++ nl)
             ++ fst (fst (@renderPage quietEnv []
                            (set_Commands appTree children)
                            defaultLinkHandler (mkDate 2 January 2006))))
    /\ snd (fst r) =
       snd (fst (@renderPage quietEnv [] (set_Commands appTree children)
                   defaultLinkHandler (mkDate 2 January 2006))).
Proof.
  intros r.
  apply (@root_page_file_holds_prepended_text_and_page quietEnv "out"
           (fun f => "# " ++ f ++ nl) defaultLinkHandler [] appTree []
           (fst (fst r)) (snd (fst r)) (Some "old text")).
  vm_compute. reflexivity.
Defined.

Lemma rendering_leaves_children_sorted_witness :
  ascendingNames
    (Commands (snd (fst (@GenCustom quietEnv [] unsortedTree
                           (@fileWriter quietEnv "out/app.txt")
                           defaultLinkHandler [])))).
Proof.
  exact (@rendering_leaves_children_sorted quietEnv
           (envWith_sort_contract []) [] unsortedTree
           (@fileWriter quietEnv "out/app.txt") defaultLinkHandler []
           eq_refl).
Defined.

Lemma GenTree_root_file_is_the_page_witness :
  let r := @GenTree quietEnv [] appTree "out" [] in
  exists t1 children,
    GenTreeCustom_range
      (fun c => @GenTreeCustom quietEnv [appTree] c "out" (fun _ => "")
                  defaultLinkHandler)
      (Commands appTree) [] = (t1, children, None)
    /\ fileContent "out/app.txt" (fst (fst r)) None =
       Some (fst (fst (@renderPage quietEnv []
                         (set_Commands appTree children) defaultLinkHandler
                         (mkDate 2 January 2006)))).
Proof.
  intros r.
  apply (@GenTree_root_file_is_the_page quietEnv [] appTree "out" []
           (fst (fst r)) (snd (fst r)) None).
  vm_compute. reflexivity.
Defined.

Lemma walk_stays_below_its_root_witness :
  let r := @GenTree quietEnv [appTree] appSub "out" [] in
  exists d,
    fst (fst r) = ([] ++ d)%list
    /\ Forall
         (fun e => exists suffix,
            eventFile e =
            "out" ++ "/"
            ++ (ReplaceAll (("app" ++ " " ++ "sub") ++ suffix) " " "-"
                ++ ".txt"))
         d.
Proof.
  intros r.
  apply (@walk_stays_below_its_root quietEnv "out" (fun _ => "")
           defaultLinkHandler [appTree] appSub [] (fst (fst r))
           (snd (fst r)) (snd r)).
  vm_compute. reflexivity.
Defined.
